(** * Fast Fibonacci by matrix exponentiation: a model of [Fibonacci.c]

    The C program computes the n-th Fibonacci number by raising the matrix
    [[1 1; 1 0]] to a power with the square-and-multiply method.  The three
    functions of the core are embedded here the way they are written:

    - [matrix_to2] and [matrix_multiply] work on arrays of three [real]s that
      they receive by pointer; they are state transformers on a flat memory,
      with the loads and stores in the order of the source;
    - [fibonacci] owns two such arrays in its stack frame, decrements its
      [long] index and runs the [for(;;)] loop; the loop is given fuel, so
      that a run that never leaves the loop is a run that returns [None] for
      every amount of fuel.

    The type [real] of the source is a macro ([__float128] or [long double]).
    It is kept abstract, as a class of arithmetic operations; the exact
    arithmetic of the integers is one instance. *)

From Stdlib Require Import ZArith Lia Arith Bool List String.

Set Implicit Arguments.
Local Open Scope Z_scope.

(* ================================================================= *)
(** ** The arithmetic of [real] *)

(** What the program uses of its number type: the literals [0] and [1],
    [+] and [*]. *)
Class RealOps (real : Type) := {
  rzero : real;
  rone  : real;
  rplus : real -> real -> real;
  rmult : real -> real -> real
}.

(** Exact arithmetic: the integers. *)
#[export] Instance Z_exact : RealOps Z := {
  rzero := 0;
  rone  := 1;
  rplus := Z.add;
  rmult := Z.mul
}.

(* ================================================================= *)
(** ** The [long] index *)

Module Long.

  (** [long] is taken as the 64-bit two's complement integer of the LP64
      platforms the [__float128] branch of the source is written for. *)
Definition bits : Z := 64.
Definition LONG_MIN : Z := - 2 ^ (bits - 1).
Definition LONG_MAX : Z := 2 ^ (bits - 1) - 1.

Definition in_range (x : Z) : Prop := LONG_MIN <= x <= LONG_MAX.

  (** Wrap-around of a result into the range of [long]. *)
Definition wrap (x : Z) : Z := (x - LONG_MIN) mod 2 ^ bits + LONG_MIN.

  (** [index --] *)
Definition dec (x : Z) : Z := wrap (x - 1).

  (** [index & 1], read as a condition *)
Definition low_bit_set (x : Z) : bool := negb (Z.land x 1 =? 0).

  (** [index >>= 1]: the arithmetic shift, which copies the sign bit. *)
Definition shr1 (x : Z) : Z := Z.shiftr x 1.

End Long.

(* ================================================================= *)
(** ** Memory: arrays of [real] reached through pointers *)

Section Program.

Context {real : Type} {ops : RealOps real}.

  (** A pointer is the address of a cell; [p[i]] is the cell [p + i]. *)
Definition ptr := nat.
Definition mem := ptr -> real.

Definition load (m : mem) (p : ptr) (i : nat) : real := m (p + i)%nat.

Definition store (m : mem) (p : ptr) (i : nat) (v : real) : mem :=
    fun a => if Nat.eqb a (p + i) then v else m a.

  (** The contents of a three-element array, as a value. *)
Record matrix := Mat3 { e0 : real; e1 : real; e2 : real }.

Definition read3 (m : mem) (p : ptr) : matrix :=
    Mat3 (load m p 0) (load m p 1) (load m p 2).

  (** [real a[3] = {x, y, z};] *)
Definition init3 (m : mem) (p : ptr) (x y z : real) : mem :=
    store (store (store m p 0 x) p 1 y) p 2 z.

  (* --------------------------------------------------------------- *)
  (** *** [matrix_to2] *)

Definition matrix_to2 (mat : ptr) (m : mem) : mem :=
    let a  := load m mat 0 in
    let b  := load m mat 1 in
    let b2 := rmult b b in
    let c  := load m mat 2 in
    let m  := store m mat 0 (rplus (rmult a a) b2) in
    let m  := store m mat 1 (rplus (rmult a b) (rmult b c)) in
    store m mat 2 (rplus b2 (rmult c c)).

  (* --------------------------------------------------------------- *)
  (** *** [matrix_multiply] *)

Definition matrix_multiply (out in1 in2 : ptr) (m : mem) : mem :=
    let a  := load m in1 0 in
    let b  := load m in1 1 in
    let c  := load m in1 2 in
    let d  := load m in2 0 in
    let e  := load m in2 1 in
    let f  := load m in2 2 in
    let be := rmult b e in
    let m  := store m out 0 (rplus (rmult a d) be) in
    let m  := store m out 1 (rplus (rmult a e) (rmult b f)) in
    store m out 2 (rplus be (rmult c f)).

  (* --------------------------------------------------------------- *)
  (** *** [fibonacci] *)

  (** The state of the loop: the index, the memory, and a count of the
      iterations begun so far (a ghost counter, not in the source). *)
Record loop_state := LoopState {
    ls_index : Z;
    ls_mem   : mem;
    ls_iters : nat
  }.

  (** One pass through the body of [for(;;)].  [inl] is the [break],
      [inr] the state at the start of the next pass. *)
Definition loop_body (mat ret : ptr) (s : loop_state)
    : loop_state + loop_state :=
    let m := if Long.low_bit_set (ls_index s)
             then matrix_multiply ret ret mat (ls_mem s)
             else ls_mem s in
    let index := Long.shr1 (ls_index s) in
    let n := S (ls_iters s) in
    if index =? 0
    then inl (LoopState index m n)
    else inr (LoopState index (matrix_to2 mat m) n).

  (** The loop: [None] when the fuel is used up before the [break]. *)
Fixpoint loop (fuel : nat) (mat ret : ptr) (s : loop_state)
    : option loop_state :=
    match fuel with
    | O => None
    | S fuel' =>
        match loop_body mat ret s with
        | inl s' => Some s'
        | inr s' => loop fuel' mat ret s'
        end
    end.

  (** The state at the start of pass number [k] (from 0), if the loop is
      still running then. *)
Fixpoint loop_at (k : nat) (mat ret : ptr) (s : loop_state)
    : option loop_state :=
    match k with
    | O => Some s
    | S k' =>
        match loop_body mat ret s with
        | inl _ => None
        | inr s' => loop_at k' mat ret s'
        end
    end.

  (** What a call returns: the value, the memory it leaves, the number of
      passes through the loop. *)
Record outcome := Outcome {
    value      : real;
    final_mem  : mem;
    iterations : nat
  }.

  (** The two arrays of the frame at [fp]: [mat] first, then [ret]. *)
Definition mat_of (fp : ptr) : ptr := fp.
Definition ret_of (fp : ptr) : ptr := (fp + 3)%nat.

  (** The memory and index with which [fibonacci] enters its loop. *)
Definition frame_init (fp : ptr) (m : mem) : mem :=
    let m := init3 m (mat_of fp) rone rone rzero in
    init3 m (ret_of fp) rone rone rzero.

Definition fibonacci (fuel : nat) (fp : ptr) (index : Z) (m : mem)
    : option outcome :=
    let mat := mat_of fp in
    let ret := ret_of fp in
    let m := frame_init fp m in
    if index =? 0 then Some (Outcome rzero m 0)
    else if index =? 1 then Some (Outcome rone m 0)
    else
      let index := Long.dec index in
      match loop fuel mat ret (LoopState index m 0) with
      | Some s => Some (Outcome (load (ls_mem s) ret 1) (ls_mem s) (ls_iters s))
      | None => None
      end.

  (** The loop of [fibonacci] on its own, entered with exponent [e] and both
      arrays holding the base matrix; the accumulator array is read back. *)
Definition accumulator_loop (fuel : nat) (fp : ptr) (e : Z) (m : mem)
    : option matrix :=
    match loop fuel (mat_of fp) (ret_of fp) (LoopState e (frame_init fp m) 0) with
    | Some s => Some (read3 (ls_mem s) (ret_of fp))
    | None => None
    end.

  (* --------------------------------------------------------------- *)
  (** *** Regions of memory *)

  (** Cells outside the three-element array at [p]. *)
Definition outside3 (p a : ptr) : Prop := (a < p \/ p + 3 <= a)%nat.

  (** Two three-element arrays that share no cell. *)
Definition disjoint3 (p q : ptr) : Prop := (p + 3 <= q \/ q + 3 <= p)%nat.

  (** Cells outside the six cells of the frame at [fp]. *)
Definition outside_frame (fp a : ptr) : Prop := (a < fp \/ fp + 6 <= a)%nat.

End Program.

Arguments matrix : clear implicits.
Arguments mem : clear implicits.
Arguments loop_state : clear implicits.
Arguments outcome : clear implicits.

(* ================================================================= *)
(** ** The mathematics the program relies on *)

(** The Fibonacci numbers. *)
Fixpoint fib (n : nat) : Z :=
  match n with
  | O => 0
  | S n' =>
      match n' with
      | O => 1
      | S n'' => fib n' + fib n''
      end
  end.

(** Full 2x2 integer matrices, with all four entries. *)
Module M2.

Record t := mk { m11 : Z; m12 : Z; m21 : Z; m22 : Z }.

Definition one : t := mk 1 0 0 1.
Definition base : t := mk 1 1 1 0.

Definition mul (p q : t) : t :=
    mk (m11 p * m11 q + m12 p * m21 q) (m11 p * m12 q + m12 p * m22 q)
       (m21 p * m11 q + m22 p * m21 q) (m21 p * m12 q + m22 p * m22 q).

  (** The naive power: [k] factors multiplied one after the other. *)
Fixpoint pow (p : t) (k : nat) : t :=
    match k with
    | O => one
    | S k' => mul p (pow p k')
    end.

End M2.

(** The 2x2 matrix a three-element array stands for. *)
Definition full (s : matrix Z) : M2.t :=
  M2.mk (e0 s) (e1 s) (e1 s) (e2 s).

(** The formulas of the two routines as functions on values. *)
Definition square3 {real} {ops : RealOps real} (s : matrix real) : matrix real :=
  Mat3 (rplus (rmult (e0 s) (e0 s)) (rmult (e1 s) (e1 s)))
       (rplus (rmult (e0 s) (e1 s)) (rmult (e1 s) (e2 s)))
       (rplus (rmult (e1 s) (e1 s)) (rmult (e2 s) (e2 s))).

Definition product3 {real} {ops : RealOps real} (s t : matrix real) : matrix real :=
  Mat3 (rplus (rmult (e0 s) (e0 t)) (rmult (e1 s) (e1 t)))
       (rplus (rmult (e0 s) (e1 t)) (rmult (e1 s) (e2 t)))
       (rplus (rmult (e1 s) (e1 t)) (rmult (e2 s) (e2 t))).

(** The accumulator after the test of the low bit. *)
Definition next_ret {real} {ops : RealOps real} (index : Z) (R Q : matrix real)
: matrix real :=
  if Long.low_bit_set index then product3 R Q else R.

(** The power-of-two matrix at the end of the pass. *)
Definition next_mat {real} {ops : RealOps real} (index : Z) (Q : matrix real)
: matrix real :=
  if Long.shr1 index =? 0 then Q else square3 Q.

(** Two loop states that hold the same index, the same count and the same
    two matrices, each in its own memory and at its own frame. *)
Definition same_view {real} (fp1 fp2 : ptr) (s1 s2 : loop_state real) : Prop :=
  ls_index s1 = ls_index s2 /\
  ls_iters s1 = ls_iters s2 /\
  read3 (ls_mem s1) (ret_of fp1) = read3 (ls_mem s2) (ret_of fp2) /\
  read3 (ls_mem s1) (mat_of fp1) = read3 (ls_mem s2) (mat_of fp2).

(** The integers seen in an arithmetic: [inj] says how the type [real]
    holds an integer, and the arithmetic is exact below [B] when the two
    literals are the integers 0 and 1 and a sum or product of non-negative
    integers that stays below [B] is computed without error.  A binary
    floating-point format with a significand of [p] bits is exact below
    [2^p]. *)
Definition exact_below {real} {ops : RealOps real} (inj : Z -> real) (B : Z)
  : Prop :=
  rzero = inj 0 /\
  rone = inj 1 /\
  (forall x y, 0 <= x -> 0 <= y -> x + y < B ->
               rplus (inj x) (inj y) = inj (x + y)) /\
  (forall x y, 0 <= x -> 0 <= y -> x * y < B ->
               rmult (inj x) (inj y) = inj (x * y)).

Definition inj3 {real} (inj : Z -> real) (s : matrix Z) : matrix real :=
  Mat3 (inj (e0 s)) (inj (e1 s)) (inj (e2 s)).

(** The number of binary digits of a number: 0 for 0, and [log2 x + 1] for a
    positive [x]. *)
Definition bit_length (x : Z) : nat :=
  if x <=? 0 then 0%nat else Z.to_nat (Z.log2 x + 1).

(* ================================================================= *)
(** ** [main] *)

Section MainProgram.

Context {real : Type} {ops : RealOps real}.

(** [atol] of the C library: the program calls it and does not define it. *)
Variable atol : string -> Z.

(** How a run of [main] ends: it returns an exit code, having called
    [printf("%Lf", val)] with some [val] or not at all; or it hands [atol] the
    null pointer that ends [argv], which the C standard leaves undefined.
    [printf_arg] is the argument [val] of the call, not the text written:
    the text is the value only where [real] is [long double]; where [real]
    is [__float128] the argument does not match the conversion [%Lf] and
    what is written is undefined. *)
Inductive main_result :=
| Returned (code : Z) (printf_arg : option real)
| NullArgument.

(** [argv] is the list of the argument strings, the name of the program
    first; [argc] is its length, and [argv[argc]] is the null pointer.  The
    [_controlfp_s] calls are compiled for Microsoft Visual C only and are
    left out; of the call of [printf] the argument is kept, and the text it
    writes is not modelled. *)
Definition main (fuel : nat) (fp : ptr) (argv : list string) (m : mem real)
  : option main_result :=
  let argc := Z.of_nat (List.length argv) in
  if argc <? 1 then Some (Returned 0 None)
  else
    match List.nth_error argv 1 with
    | None => Some NullArgument
    | Some arg =>
        let index := atol arg in
        match fibonacci fuel fp index m with
        | Some o => Some (Returned 0 (Some (value o)))
        | None => None
        end
    end.

End MainProgram.

Arguments main_result : clear implicits.
Arguments Returned {real} code printf_arg.
Arguments NullArgument {real}.

(* ================================================================= *)
(** ** The accumulator loop as the design words it *)

(** The base matrix as the value of an array. *)
Definition base3 {real} {ops : RealOps real} : matrix real :=
  Mat3 rone rone rzero.

(** Section 4.3 of the design, on matrices as values and with no memory:
    inspect the lowest bit of the exponent; if it is set, multiply the
    accumulator by the power-of-two matrix; halve the exponent; stop if it is
    zero; otherwise square the power-of-two matrix and repeat. *)
Fixpoint spec_accumulator_loop {real} {ops : RealOps real}
  (fuel : nat) (e : Z) (acc pw : matrix real) : option (matrix real) :=
  match fuel with
  | O => None
  | S fuel' =>
      let acc := if Z.odd e then product3 acc pw else acc in
      let e := e / 2 in
      if e =? 0 then Some acc
      else spec_accumulator_loop fuel' e acc (square3 pw)
  end.

(** The determinant of a 2x2 matrix. *)
Definition det (p : M2.t) : Z := M2.m11 p * M2.m22 p - M2.m12 p * M2.m21 p.

(* ================================================================= *)
(** ** Loads and stores *)

Section MemoryFacts.

Context {real : Type} {ops : RealOps real}.
Implicit Types (m : mem real) (p q out fp : ptr) (s : loop_state real).

Lemma load_store_same m p i v : load (store m p i v) p i = v.
  Proof. unfold load, store. now rewrite Nat.eqb_refl. Qed.

Lemma load_store_other m p i q j v :
    (q + j <> p + i)%nat -> load (store m p i v) q j = load m q j.
  Proof.
    intros Hne. unfold load, store.
    destruct (Nat.eqb_spec (q + j) (p + i)); [contradiction | reflexivity].
  Qed.

Lemma store_outside m p i v a :
    (a <> p + i)%nat -> store m p i v a = m a.
  Proof.
    intros Hne. unfold store.
    destruct (Nat.eqb_spec a (p + i)); [contradiction | reflexivity].
  Qed.

Ltac cells :=
    repeat first
      [ rewrite load_store_same
      | rewrite load_store_other by (unfold outside3, disjoint3 in *; lia)
      | rewrite store_outside by (unfold outside3, disjoint3 in *; lia) ].

Lemma read3_init3 m p x y z : read3 (init3 m p x y z) p = Mat3 x y z.
  Proof. unfold read3, init3. now cells. Qed.

Lemma read3_init3_other m p q x y z :
    disjoint3 p q -> read3 (init3 m p x y z) q = read3 m q.
  Proof. intros D. unfold read3, init3. now cells. Qed.

Lemma init3_outside m p x y z a :
    outside3 p a -> init3 m p x y z a = m a.
  Proof. intros O. unfold init3. now cells. Qed.

  (** [matrix_multiply] leaves in [out] the product of what [in1] and [in2]
      held before the call, whatever cells the three arrays share. *)
Lemma read3_matrix_multiply m out in1 in2 :
    read3 (matrix_multiply out in1 in2 m) out
    = product3 (read3 m in1) (read3 m in2).
  Proof. unfold read3, matrix_multiply, product3; cbn [e0 e1 e2]. now cells. Qed.

Lemma matrix_multiply_outside m out in1 in2 a :
    outside3 out a -> matrix_multiply out in1 in2 m a = m a.
  Proof. intros O. unfold matrix_multiply. now cells. Qed.

Lemma read3_matrix_multiply_other m out in1 in2 q :
    disjoint3 out q -> read3 (matrix_multiply out in1 in2 m) q = read3 m q.
  Proof. intros D. unfold read3, matrix_multiply. now cells. Qed.

Lemma read3_matrix_to2 m p :
    read3 (matrix_to2 p m) p = square3 (read3 m p).
  Proof. unfold read3, matrix_to2, square3; cbn [e0 e1 e2]. now cells. Qed.

Lemma matrix_to2_outside m p a :
    outside3 p a -> matrix_to2 p m a = m a.
  Proof. intros O. unfold matrix_to2. now cells. Qed.

Lemma read3_matrix_to2_other m p q :
    disjoint3 p q -> read3 (matrix_to2 p m) q = read3 m q.
  Proof. intros D. unfold read3, matrix_to2. now cells. Qed.

  (** Squaring is the product of a matrix with itself, operation for
      operation. *)
Lemma square3_product3 (t : matrix real) : square3 t = product3 t t.
  Proof. reflexivity. Qed.

  (* --------------------------------------------------------------- *)
  (** *** The frame of [fibonacci] *)

Lemma frame_disjoint fp : disjoint3 (mat_of fp) (ret_of fp).
  Proof. unfold disjoint3, mat_of, ret_of. lia. Qed.

Lemma frame_disjoint' fp : disjoint3 (ret_of fp) (mat_of fp).
  Proof. unfold disjoint3, mat_of, ret_of. lia. Qed.

Lemma outside_frame_mat fp a : outside_frame fp a -> outside3 (mat_of fp) a.
  Proof. unfold outside_frame, outside3, mat_of. lia. Qed.

Lemma outside_frame_ret fp a : outside_frame fp a -> outside3 (ret_of fp) a.
  Proof. unfold outside_frame, outside3, ret_of. lia. Qed.

Lemma frame_init_mat fp m :
    read3 (frame_init fp m) (mat_of fp) = Mat3 rone rone rzero.
  Proof.
    unfold frame_init.
    rewrite read3_init3_other by apply frame_disjoint'.
    apply read3_init3.
  Qed.

Lemma frame_init_ret fp m :
    read3 (frame_init fp m) (ret_of fp) = Mat3 rone rone rzero.
  Proof. unfold frame_init. apply read3_init3. Qed.

Lemma frame_init_outside fp m a :
    outside_frame fp a -> frame_init fp m a = m a.
  Proof.
    intros O. unfold frame_init.
    rewrite init3_outside by now apply outside_frame_ret.
    now apply init3_outside, outside_frame_mat.
  Qed.

  (* --------------------------------------------------------------- *)
  (** *** One pass of the loop, seen through the two arrays *)

Lemma loop_body_view fp s :
    exists m',
      (forall a, outside_frame fp a -> m' a = ls_mem s a) /\
      read3 m' (ret_of fp)
        = next_ret (ls_index s) (read3 (ls_mem s) (ret_of fp))
                                (read3 (ls_mem s) (mat_of fp)) /\
      read3 m' (mat_of fp)
        = next_mat (ls_index s) (read3 (ls_mem s) (mat_of fp)) /\
      loop_body (mat_of fp) (ret_of fp) s
        = (if Long.shr1 (ls_index s) =? 0 then inl else inr)
            (LoopState (Long.shr1 (ls_index s)) m' (S (ls_iters s))).
  Proof.
    unfold loop_body, next_ret, next_mat.
    set (m1 := if Long.low_bit_set (ls_index s)
               then matrix_multiply (ret_of fp) (ret_of fp) (mat_of fp) (ls_mem s)
               else ls_mem s).
    assert (O1 : forall a, outside_frame fp a -> m1 a = ls_mem s a).
    { intros a O. subst m1. destruct (Long.low_bit_set _); [|reflexivity].
      now apply matrix_multiply_outside, outside_frame_ret. }
    assert (R1 : read3 m1 (ret_of fp)
                 = if Long.low_bit_set (ls_index s)
                   then product3 (read3 (ls_mem s) (ret_of fp))
                                 (read3 (ls_mem s) (mat_of fp))
                   else read3 (ls_mem s) (ret_of fp)).
    { subst m1. destruct (Long.low_bit_set _); [|reflexivity].
      apply read3_matrix_multiply. }
    assert (Q1 : read3 m1 (mat_of fp) = read3 (ls_mem s) (mat_of fp)).
    { subst m1. destruct (Long.low_bit_set _); [|reflexivity].
      apply read3_matrix_multiply_other, frame_disjoint'. }
    destruct (Long.shr1 (ls_index s) =? 0).
    - exists m1. now repeat split.
    - exists (matrix_to2 (mat_of fp) m1). repeat split.
      + intros a O. rewrite matrix_to2_outside by now apply outside_frame_mat.
        now apply O1.
      + rewrite read3_matrix_to2_other by apply frame_disjoint. exact R1.
      + rewrite read3_matrix_to2. now rewrite Q1.
  Qed.

End MemoryFacts.

(* ================================================================= *)
(** ** The loop, for any arithmetic *)

Section LoopFacts.

Context {real : Type} {ops : RealOps real}.
Implicit Types (m : mem real) (fp : ptr) (s t : loop_state real).

(** More fuel does not change the result of a run that ends. *)
Lemma loop_more_fuel fuel extra mat ret s t :
  loop fuel mat ret s = Some t -> loop (fuel + extra) mat ret s = Some t.
Proof.
  revert s. induction fuel as [|fuel IH]; intros s H; [discriminate|].
  cbn [loop Nat.add] in *.
  destruct (loop_body mat ret s); [exact H | now apply IH].
Qed.

(** The loop writes to the frame only. *)
Lemma loop_outside fuel fp s t :
  loop fuel (mat_of fp) (ret_of fp) s = Some t ->
  forall a, outside_frame fp a -> ls_mem t a = ls_mem s a.
Proof.
  revert s. induction fuel as [|fuel IH]; intros s H a O; [discriminate|].
  cbn [loop] in H.
  destruct (loop_body_view fp s) as (m' & Hout & _ & _ & Hbody).
  rewrite Hbody in H.
  destruct (Long.shr1 (ls_index s) =? 0).
  - injection H as <-. cbn. now apply Hout.
  - rewrite (IH _ H a O). cbn. now apply Hout.
Qed.

(** A pass depends on the index and on the contents of the two arrays,
    and on nothing else. *)
Lemma loop_body_agree fp1 fp2 s1 s2 :
  same_view fp1 fp2 s1 s2 ->
  match loop_body (mat_of fp1) (ret_of fp1) s1,
        loop_body (mat_of fp2) (ret_of fp2) s2 with
  | inl t1, inl t2 => same_view fp1 fp2 t1 t2
  | inr t1, inr t2 => same_view fp1 fp2 t1 t2
  | _, _ => False
  end.
Proof.
  intros (Hi & Hn & Hr & Hq).
  destruct (loop_body_view fp1 s1) as (m1 & _ & R1 & Q1 & B1).
  destruct (loop_body_view fp2 s2) as (m2 & _ & R2 & Q2 & B2).
  rewrite B1, B2, <- Hi.
  assert (V : same_view fp1 fp2
                (LoopState (Long.shr1 (ls_index s1)) m1 (S (ls_iters s1)))
                (LoopState (Long.shr1 (ls_index s1)) m2 (S (ls_iters s2)))).
  { unfold same_view; cbn.
    rewrite R1, R2, Q1, Q2, Hr, Hq, Hi, Hn. now repeat split. }
  now destruct (Long.shr1 (ls_index s1) =? 0).
Qed.

Lemma loop_agree fuel1 : forall fuel2 fp1 fp2 s1 s2 t1 t2,
  same_view fp1 fp2 s1 s2 ->
  loop fuel1 (mat_of fp1) (ret_of fp1) s1 = Some t1 ->
  loop fuel2 (mat_of fp2) (ret_of fp2) s2 = Some t2 ->
  same_view fp1 fp2 t1 t2.
Proof.
  induction fuel1 as [|fuel1 IH]; intros fuel2 fp1 fp2 s1 s2 t1 t2 V H1 H2;
    [discriminate|].
  destruct fuel2 as [|fuel2]; [discriminate|].
  cbn [loop] in H1, H2.
  pose proof (loop_body_agree V) as B.
  destruct (loop_body (mat_of fp1) (ret_of fp1) s1) as [u1|u1],
           (loop_body (mat_of fp2) (ret_of fp2) s2) as [u2|u2];
    try contradiction.
  - now injection H1 as <-; injection H2 as <-.
  - exact (IH _ _ _ _ _ _ _ B H1 H2).
Qed.

(** Whether a run ends within a given fuel depends on the index only. *)
Lemma loop_ends_agree fuel : forall fp1 fp2 s1 s2,
  same_view fp1 fp2 s1 s2 ->
  loop fuel (mat_of fp1) (ret_of fp1) s1 = None ->
  loop fuel (mat_of fp2) (ret_of fp2) s2 = None.
Proof.
  induction fuel as [|fuel IH]; intros fp1 fp2 s1 s2 V H1; [reflexivity|].
  cbn [loop] in *.
  pose proof (loop_body_agree V) as B.
  destruct (loop_body (mat_of fp1) (ret_of fp1) s1) as [u1|u1],
           (loop_body (mat_of fp2) (ret_of fp2) s2) as [u2|u2];
    try contradiction; try discriminate.
  exact (IH _ _ _ _ B H1).
Qed.

Lemma frame_init_same_view fp1 fp2 m1 m2 index :
  same_view fp1 fp2 (LoopState index (frame_init fp1 m1) 0)
                    (LoopState index (frame_init fp2 m2) 0).
Proof.
  unfold same_view; cbn.
  now rewrite !frame_init_ret, !frame_init_mat.
Qed.

End LoopFacts.

(* ================================================================= *)
(** ** Arithmetic of [long] *)

Lemma shr1_div2 x : Long.shr1 x = x / 2.
Proof. unfold Long.shr1. now rewrite Z.shiftr_div_pow2 by lia. Qed.

Lemma low_bit_set_mod2 x : Long.low_bit_set x = (x mod 2 =? 1).
Proof.
  unfold Long.low_bit_set.
  change 1 with (Z.ones 1) at 1. rewrite Z.land_ones by lia.
  change (2 ^ 1) with 2.
  pose proof (Z.mod_pos_bound x 2 ltac:(lia)).
  destruct (Z.eqb_spec (x mod 2) 0), (Z.eqb_spec (x mod 2) 1); cbn; lia || reflexivity.
Qed.

(** The binary decomposition the loop walks through. *)
Lemma shr1_low_bit x :
  x = 2 * Long.shr1 x + (if Long.low_bit_set x then 1 else 0).
Proof.
  rewrite shr1_div2, low_bit_set_mod2.
  pose proof (Z.div_mod x 2 ltac:(lia)).
  pose proof (Z.mod_pos_bound x 2 ltac:(lia)).
  destruct (Z.eqb_spec (x mod 2) 1); lia.
Qed.

Lemma shr1_nonneg x : 0 <= x -> 0 <= Long.shr1 x.
Proof. intros H. rewrite shr1_div2. now apply Z.div_pos. Qed.

(** The arithmetic shift of a negative number is negative. *)
Lemma shr1_negative x : x < 0 -> Long.shr1 x < 0.
Proof. intros H. rewrite shr1_div2. apply Z.div_lt_upper_bound; lia. Qed.

Lemma to_nat_shr1 x :
  0 <= x ->
  Z.to_nat x
  = (2 * Z.to_nat (Long.shr1 x) + (if Long.low_bit_set x then 1 else 0))%nat.
Proof.
  intros H. pose proof (shr1_nonneg H). pose proof (shr1_low_bit x).
  destruct (Long.low_bit_set x); lia.
Qed.

(** No wrap-around when the index is above [LONG_MIN]. *)
Lemma dec_no_wrap x :
  Long.LONG_MIN < x <= Long.LONG_MAX -> Long.dec x = x - 1.
Proof.
  unfold Long.dec, Long.wrap, Long.LONG_MIN, Long.LONG_MAX, Long.bits.
  intros H. rewrite Z.mod_small; lia.
Qed.

Lemma bit_length_shr1 x :
  0 <= x -> Long.shr1 x <> 0 -> bit_length x = S (bit_length (Long.shr1 x)).
Proof.
  intros H0 Hn. pose proof (shr1_nonneg H0) as H1.
  assert (H2 : 2 <= x) by (pose proof (shr1_low_bit x); rewrite shr1_div2 in *;
                           destruct (Z.le_gt_cases 2 x); [assumption|];
                           rewrite Z.div_small in Hn; lia).
  unfold bit_length.
  destruct (Z.leb_spec x 0); [lia|].
  destruct (Z.leb_spec (Long.shr1 x) 0); [lia|].
  unfold Long.shr1. rewrite Z.log2_shiftr by lia.
  pose proof (Z.log2_le_mono 2 x H2) as L. change (Z.log2 2) with 1 in L.
  lia.
Qed.

Lemma bit_length_small x :
  0 <= x -> Long.shr1 x = 0 -> Nat.max 1 (bit_length x) = 1%nat.
Proof.
  intros H0 Hz. pose proof (shr1_low_bit x) as E. rewrite Hz in E.
  unfold bit_length.
  destruct (Long.low_bit_set x); cbn in E; subst x; reflexivity.
Qed.

Lemma bit_length_pos x : 0 < x -> (1 <= bit_length x)%nat.
Proof.
  intros H. unfold bit_length. destruct (Z.leb_spec x 0); [lia|].
  pose proof (Z.log2_nonneg x). lia.
Qed.

Lemma bit_length_bound x : 0 < x -> x < 2 ^ Z.of_nat (bit_length x).
Proof.
  intros H. unfold bit_length. destruct (Z.leb_spec x 0); [lia|].
  pose proof (Z.log2_nonneg x).
  rewrite Z2Nat.id by lia.
  replace (Z.log2 x + 1) with (Z.succ (Z.log2 x)) by lia.
  now apply Z.log2_spec.
Qed.

(* ================================================================= *)
(** ** Powers of the base matrix *)

Ltac m2_ring :=
  repeat match goal with p : M2.t |- _ => destruct p end;
  unfold M2.mul, M2.one; cbn [M2.m11 M2.m12 M2.m21 M2.m22];
  f_equal; ring.

Lemma M2_mul_assoc p q r : M2.mul p (M2.mul q r) = M2.mul (M2.mul p q) r.
Proof. m2_ring. Qed.

Lemma M2_mul_one_l p : M2.mul M2.one p = p.
Proof. m2_ring. Qed.

Lemma M2_mul_one_r p : M2.mul p M2.one = p.
Proof. m2_ring. Qed.

Lemma M2_pow_add p j k :
  M2.pow p (j + k) = M2.mul (M2.pow p j) (M2.pow p k).
Proof.
  induction j as [|j IH]; cbn [M2.pow Nat.add].
  - now rewrite M2_mul_one_l.
  - now rewrite IH, M2_mul_assoc.
Qed.

Lemma M2_pow_1 p : M2.pow p 1 = p.
Proof. cbn. apply M2_mul_one_r. Qed.

(** Powers of one matrix commute. *)
Lemma M2_pow_commute p j k :
  M2.mul (M2.pow p j) (M2.pow p k) = M2.mul (M2.pow p k) (M2.pow p j).
Proof. now rewrite <- !M2_pow_add, Nat.add_comm. Qed.

Lemma fib_SS n : fib (S (S n)) = fib (S n) + fib n.
Proof. reflexivity. Qed.

(** The identity of part d of the source: the k-th power of the base matrix
    holds F(k+1), F(k), F(k), F(k-1). *)
Lemma M2_pow_base_fib k :
  M2.pow M2.base (S k) = M2.mk (fib (S (S k))) (fib (S k)) (fib (S k)) (fib k).
Proof.
  induction k as [|k IH].
  - reflexivity.
  - change (M2.pow M2.base (S (S k)))
      with (M2.mul M2.base (M2.pow M2.base (S k))).
    rewrite IH, (fib_SS (S k)), (fib_SS k).
    unfold M2.mul, M2.base; cbn [M2.m11 M2.m12 M2.m21 M2.m22].
    f_equal; ring.
Qed.

Lemma M2_pow_base_m12 k : M2.m12 (M2.pow M2.base k) = fib k.
Proof. destruct k; [reflexivity|]. now rewrite M2_pow_base_fib. Qed.

(** In the product of two commuting symmetric matrices the two off-diagonal
    entries agree. *)
Lemma commuting_product_symmetric (s t : matrix Z) :
  M2.mul (full s) (full t) = M2.mul (full t) (full s) ->
  e0 s * e1 t + e1 s * e2 t = e1 s * e0 t + e2 s * e1 t.
Proof.
  destruct s as [a b c], t as [d e f].
  unfold full, M2.mul; cbn [e0 e1 e2 M2.m11 M2.m12 M2.m21 M2.m22].
  intros H. injection H as _ H12 _ _. lia.
Qed.

Lemma full_product3 (s t : matrix Z) :
  e0 s * e1 t + e1 s * e2 t = e1 s * e0 t + e2 s * e1 t ->
  full (product3 s t) = M2.mul (full s) (full t).
Proof.
  destruct s as [a b c], t as [d e f].
  unfold full, product3, M2.mul;
    cbn [e0 e1 e2 M2.m11 M2.m12 M2.m21 M2.m22 rplus rmult Z_exact].
  intros H. f_equal; lia.
Qed.

Lemma full_product3_pow (s t : matrix Z) j k :
  full s = M2.pow M2.base j -> full t = M2.pow M2.base k ->
  full (product3 s t) = M2.pow M2.base (j + k).
Proof.
  intros Hs Ht. rewrite M2_pow_add, <- Hs, <- Ht.
  apply full_product3, commuting_product_symmetric.
  rewrite Hs, Ht. apply M2_pow_commute.
Qed.

Lemma full_square3_pow (s : matrix Z) j :
  full s = M2.pow M2.base j -> full (square3 s) = M2.pow M2.base (2 * j).
Proof.
  intros Hs. rewrite square3_product3.
  replace (2 * j)%nat with (j + j)%nat by lia.
  now apply full_product3_pow.
Qed.

Lemma full_base : full (Mat3 rone rone rzero) = M2.pow M2.base 1.
Proof. reflexivity. Qed.

(* ================================================================= *)
(** ** The loop under exact arithmetic *)

(** The invariant of the loop: the accumulator holds [base^r], the other
    array [base^q], and the run ends with [base^(r + q * index)] in the
    accumulator after as many passes as the index has binary digits (one
    pass when the index is 0). *)
Lemma loop_power fuel : forall fp (s : loop_state Z) r q,
  fuel <> 0%nat ->
  0 <= ls_index s < 2 ^ Z.of_nat fuel ->
  full (read3 (ls_mem s) (ret_of fp)) = M2.pow M2.base r ->
  full (read3 (ls_mem s) (mat_of fp)) = M2.pow M2.base q ->
  exists t,
    loop fuel (mat_of fp) (ret_of fp) s = Some t /\
    full (read3 (ls_mem t) (ret_of fp))
      = M2.pow M2.base (r + q * Z.to_nat (ls_index s)) /\
    ls_iters t = (ls_iters s + Nat.max 1 (bit_length (ls_index s)))%nat /\
    ls_index t = 0.
Proof.
  induction fuel as [|fuel IH]; intros fp s r q Hf Hi Hr Hq; [contradiction|].
  destruct (loop_body_view fp s) as (m' & _ & R' & Q' & B).
  cbn [loop]. rewrite B.
  assert (Hr' : full (read3 m' (ret_of fp))
                = M2.pow M2.base
                    (r + q * (if Long.low_bit_set (ls_index s) then 1 else 0))).
  { rewrite R'. unfold next_ret. destruct (Long.low_bit_set (ls_index s)).
    - rewrite Nat.mul_1_r. now apply full_product3_pow.
    - now rewrite Nat.mul_0_r, Nat.add_0_r. }
  pose proof (to_nat_shr1 (proj1 Hi)) as E.
  destruct (Z.eqb_spec (Long.shr1 (ls_index s)) 0) as [Hz|Hnz].
  - eexists; split; [reflexivity|]. cbn [ls_mem ls_iters ls_index].
    rewrite Hr', (bit_length_small (proj1 Hi) Hz), Hz.
    rewrite Hz in E. cbn in E. rewrite E.
    split; [reflexivity|split; [lia | reflexivity]].
  - assert (Hq' : full (read3 m' (mat_of fp)) = M2.pow M2.base (2 * q)).
    { rewrite Q'. unfold next_mat.
      destruct (Z.eqb_spec (Long.shr1 (ls_index s)) 0); [contradiction|].
      now apply full_square3_pow. }
    pose proof (shr1_nonneg (proj1 Hi)) as Hs0.
    assert (Hs1 : Long.shr1 (ls_index s) < 2 ^ Z.of_nat fuel).
    { rewrite shr1_div2. apply Z.div_lt_upper_bound; [lia|].
      rewrite <- Z.pow_succ_r by lia. rewrite <- Nat2Z.inj_succ. apply Hi. }
    assert (Hf' : fuel <> 0%nat).
    { intros ->. change (2 ^ Z.of_nat 0) with 1 in Hs1. lia. }
    destruct (IH fp (LoopState (Long.shr1 (ls_index s)) m' (S (ls_iters s)))
                 _ _ Hf' (conj Hs0 Hs1) Hr' Hq') as (t & Ht & Pt & Nt & Zt).
    exists t. cbn [ls_mem ls_iters ls_index] in *.
    split; [exact Ht|]. split; [|split; [|exact Zt]].
    + rewrite Pt. f_equal. rewrite E.
      destruct (Long.low_bit_set (ls_index s)); lia.
    + rewrite Nt, (bit_length_shr1 (proj1 Hi) Hnz).
      pose proof (bit_length_pos (x := Long.shr1 (ls_index s)) ltac:(lia)).
      lia.
Qed.

(** Entered with both arrays holding the base matrix, the loop ends with
    [base^(e+1)] in the accumulator. *)
Lemma loop_from_base fuel fp e (m : mem Z) :
  (63 <= fuel)%nat ->
  0 <= e <= Long.LONG_MAX ->
  exists t,
    loop fuel (mat_of fp) (ret_of fp) (LoopState e (frame_init fp m) 0) = Some t /\
    full (read3 (ls_mem t) (ret_of fp)) = M2.pow M2.base (S (Z.to_nat e)) /\
    ls_iters t = Nat.max 1 (bit_length e).
Proof.
  intros Hf He.
  destruct (@loop_power fuel fp (LoopState e (frame_init fp m) 0) 1%nat 1%nat)
    as (t & Ht & Pt & Nt & _); cbn [ls_index ls_mem ls_iters].
  - lia.
  - split; [lia|].
    apply Z.lt_le_trans with (2 ^ 63); [unfold Long.LONG_MAX, Long.bits in He; lia|].
    apply Z.pow_le_mono_r; lia.
  - rewrite frame_init_ret. apply full_base.
  - rewrite frame_init_mat. apply full_base.
  - exists t. cbn [ls_index ls_mem ls_iters] in *.
    repeat split; [exact Ht | | exact Nt].
    rewrite Pt. f_equal. lia.
Qed.

(** A negative index stays negative, so the loop never reaches its
    [break]. *)
Lemma loop_at_negative {real} {ops : RealOps real} k :
  forall fp (s : loop_state real),
  ls_index s < 0 ->
  exists t, loop_at k (mat_of fp) (ret_of fp) s = Some t /\ ls_index t < 0.
Proof.
  induction k as [|k IH]; intros fp s Hneg.
  - exists s. now split.
  - cbn [loop_at].
    destruct (loop_body_view fp s) as (m' & _ & _ & _ & B). rewrite B.
    pose proof (shr1_negative Hneg) as Hs.
    destruct (Z.eqb_spec (Long.shr1 (ls_index s)) 0); [lia|].
    now apply IH.
Qed.

Lemma loop_negative {real} {ops : RealOps real} fuel :
  forall fp (s : loop_state real),
  ls_index s < 0 -> loop fuel (mat_of fp) (ret_of fp) s = None.
Proof.
  induction fuel as [|fuel IH]; intros fp s Hneg; [reflexivity|].
  cbn [loop].
  destruct (loop_body_view fp s) as (m' & _ & _ & _ & B). rewrite B.
  pose proof (shr1_negative Hneg) as Hs.
  destruct (Z.eqb_spec (Long.shr1 (ls_index s)) 0); [lia|].
  now apply IH.
Qed.

(** At the start of every pass both arrays hold powers of the base matrix,
    whatever the index. *)
Lemma loop_at_powers k : forall fp (s t : loop_state Z) r q,
  full (read3 (ls_mem s) (ret_of fp)) = M2.pow M2.base r ->
  full (read3 (ls_mem s) (mat_of fp)) = M2.pow M2.base q ->
  loop_at k (mat_of fp) (ret_of fp) s = Some t ->
  exists r' q',
    full (read3 (ls_mem t) (ret_of fp)) = M2.pow M2.base r' /\
    full (read3 (ls_mem t) (mat_of fp)) = M2.pow M2.base q'.
Proof.
  induction k as [|k IH]; intros fp s t r q Hr Hq H; cbn [loop_at] in H.
  - injection H as <-. now exists r, q.
  - destruct (loop_body_view fp s) as (m' & _ & R' & Q' & B).
    rewrite B in H.
    destruct (Long.shr1 (ls_index s) =? 0) eqn:Hz; [discriminate|].
    refine (IH fp _ t (if Long.low_bit_set (ls_index s) then r + q else r)%nat
               (2 * q)%nat _ _ H); cbn [ls_mem].
    + rewrite R'. unfold next_ret.
      destruct (Long.low_bit_set (ls_index s));
        [now apply full_product3_pow | exact Hr].
    + rewrite Q'. unfold next_mat. rewrite Hz. now apply full_square3_pow.
Qed.

(** And so they do when the loop is left. *)
Lemma loop_result_powers fuel : forall fp (s t : loop_state Z) r q,
  full (read3 (ls_mem s) (ret_of fp)) = M2.pow M2.base r ->
  full (read3 (ls_mem s) (mat_of fp)) = M2.pow M2.base q ->
  loop fuel (mat_of fp) (ret_of fp) s = Some t ->
  exists r' q',
    full (read3 (ls_mem t) (ret_of fp)) = M2.pow M2.base r' /\
    full (read3 (ls_mem t) (mat_of fp)) = M2.pow M2.base q'.
Proof.
  induction fuel as [|fuel IH]; intros fp s t r q Hr Hq H; [discriminate|].
  cbn [loop] in H.
  destruct (loop_body_view fp s) as (m' & _ & R' & Q' & B).
  rewrite B in H.
  assert (Hr' : full (read3 m' (ret_of fp))
                = M2.pow M2.base
                    (if Long.low_bit_set (ls_index s) then r + q else r)%nat).
  { rewrite R'. unfold next_ret.
    destruct (Long.low_bit_set (ls_index s));
      [now apply full_product3_pow | exact Hr]. }
  destruct (Long.shr1 (ls_index s) =? 0) eqn:Hz.
  - injection H as <-. cbn [ls_mem].
    exists (if Long.low_bit_set (ls_index s) then r + q else r)%nat, q.
    split; [exact Hr'|]. rewrite Q'. unfold next_mat. now rewrite Hz.
  - refine (IH fp (LoopState (Long.shr1 (ls_index s)) m' (S (ls_iters s))) t
               _ (2 * q)%nat Hr' _ H); cbn [ls_mem].
    rewrite Q'. unfold next_mat. rewrite Hz. now apply full_square3_pow.
Qed.

(** The value [fibonacci] returns and the matrix it leaves in [ret]. *)
Lemma fibonacci_exact n fuel fp (m : mem Z) :
  0 <= n <= Long.LONG_MAX -> (63 <= fuel)%nat ->
  exists o,
    fibonacci fuel fp n m = Some o /\
    value o = fib (Z.to_nat n) /\
    (2 <= n ->
     full (read3 (final_mem o) (ret_of fp)) = M2.pow M2.base (Z.to_nat n) /\
     iterations o = bit_length (n - 1)).
Proof.
  intros Hn Hf. unfold fibonacci.
  destruct (Z.eqb_spec n 0) as [->|N0].
  { eexists; split; [reflexivity|]. split; [reflexivity|]. lia. }
  destruct (Z.eqb_spec n 1) as [->|N1].
  { eexists; split; [reflexivity|]. split; [reflexivity|]. lia. }
  assert (Hmin : Long.LONG_MIN < n) by (unfold Long.LONG_MIN, Long.bits; lia).
  rewrite dec_no_wrap by lia.
  destruct (@loop_from_base fuel fp (n - 1) m Hf ltac:(lia)) as (t & Ht & Pt & Nt).
  rewrite Ht. eexists; split; [reflexivity|]. cbn [value final_mem iterations].
  replace (S (Z.to_nat (n - 1))) with (Z.to_nat n) in Pt by lia.
  split; [|intros _; split; [exact Pt|]].
  - rewrite <- M2_pow_base_m12, <- Pt. reflexivity.
  - rewrite Nt. pose proof (bit_length_pos (x := n - 1) ltac:(lia)). lia.
Qed.

(** For any arithmetic: entered with a non-negative index, the loop ends
    after as many passes as the index has binary digits (one pass for 0). *)
Lemma loop_terminates {real} {ops : RealOps real} fuel :
  forall fp (s : loop_state real),
  fuel <> 0%nat ->
  0 <= ls_index s < 2 ^ Z.of_nat fuel ->
  exists t,
    loop fuel (mat_of fp) (ret_of fp) s = Some t /\
    ls_iters t = (ls_iters s + Nat.max 1 (bit_length (ls_index s)))%nat.
Proof.
  induction fuel as [|fuel IH]; intros fp s Hf Hi; [contradiction|].
  destruct (loop_body_view fp s) as (m' & _ & _ & _ & B).
  cbn [loop]. rewrite B.
  destruct (Z.eqb_spec (Long.shr1 (ls_index s)) 0) as [Hz|Hnz].
  - eexists; split; [reflexivity|]. cbn [ls_iters].
    rewrite (bit_length_small (proj1 Hi) Hz). lia.
  - pose proof (shr1_nonneg (proj1 Hi)) as Hs0.
    assert (Hs1 : Long.shr1 (ls_index s) < 2 ^ Z.of_nat fuel).
    { rewrite shr1_div2. apply Z.div_lt_upper_bound; [lia|].
      rewrite <- Z.pow_succ_r by lia. rewrite <- Nat2Z.inj_succ. apply Hi. }
    assert (Hf' : fuel <> 0%nat)
      by (intros ->; change (2 ^ Z.of_nat 0) with 1 in Hs1; lia).
    destruct (IH fp (LoopState (Long.shr1 (ls_index s)) m' (S (ls_iters s)))
                 Hf' (conj Hs0 Hs1)) as (t & Ht & Nt).
    exists t. cbn [ls_mem ls_iters ls_index] in *. split; [exact Ht|].
    rewrite Nt, (bit_length_shr1 (proj1 Hi) Hnz).
    pose proof (bit_length_pos (x := Long.shr1 (ls_index s)) ltac:(lia)).
    lia.
Qed.

(* ================================================================= *)
(** ** Arithmetic that is exact on small integers *)

Lemma fib_nonneg n : 0 <= fib n /\ 0 <= fib (S n).
Proof.
  induction n as [|n [IH0 IH1]]; [cbn; lia|].
  split; [exact IH1|]. rewrite fib_SS. lia.
Qed.

Lemma fib_le_S n : fib n <= fib (S n).
Proof.
  destruct n; [cbn; lia|]. rewrite fib_SS.
  pose proof (fib_nonneg n). lia.
Qed.

Lemma fib_mono j k : (j <= k)%nat -> fib j <= fib k.
Proof.
  induction 1 as [|k _ IH]; [lia|].
  pose proof (fib_le_S k). lia.
Qed.

(** The entries of a power of the base matrix are Fibonacci numbers up to
    the one of the next index. *)
Lemma pow_base_entries (s : matrix Z) j :
  full s = M2.pow M2.base j ->
  0 <= e0 s <= fib (S j) /\ 0 <= e1 s <= fib (S j) /\ 0 <= e2 s <= fib (S j).
Proof.
  destruct s as [a b c]. unfold full; cbn [e0 e1 e2]. intros H.
  pose proof (f_equal M2.m11 H) as Ha.
  pose proof (f_equal M2.m12 H) as Hb.
  pose proof (f_equal M2.m22 H) as Hc.
  clear H. cbn [M2.m11 M2.m12 M2.m22] in Ha, Hb, Hc.
  destruct j as [|j].
  - cbn in Ha, Hb, Hc. cbn. lia.
  - rewrite M2_pow_base_fib in Ha, Hb, Hc.
    cbn [M2.m11 M2.m12 M2.m22] in Ha, Hb, Hc.
    pose proof (fib_nonneg j). pose proof (fib_nonneg (S j)).
    pose proof (fib_le_S j). pose proof (fib_le_S (S j)). lia.
Qed.

Section Exact.

Context {real : Type} {ops : RealOps real}.
Variables (inj : Z -> real) (B : Z).
Hypothesis exact : exact_below inj B.

Lemma product3_exact (s t : matrix Z) j k :
  full s = M2.pow M2.base j -> full t = M2.pow M2.base k ->
  fib (S (j + k)) < B ->
  product3 (inj3 inj s) (inj3 inj t) = inj3 inj (product3 s t).
Proof.
  intros Hs Ht Hb.
  destruct exact as (_ & _ & Hadd & Hmul).
  pose proof (pow_base_entries _ (full_product3_pow _ _ Hs Ht)) as Hp.
  pose proof (pow_base_entries _ Hs) as Es.
  pose proof (pow_base_entries _ Ht) as Et.
  destruct s as [a b c], t as [d e f].
  unfold product3, inj3 in *;
    cbn [e0 e1 e2 rplus rmult Z_exact] in *.
  assert (0 <= a * d) by (apply Z.mul_nonneg_nonneg; lia).
  assert (0 <= b * e) by (apply Z.mul_nonneg_nonneg; lia).
  assert (0 <= a * e) by (apply Z.mul_nonneg_nonneg; lia).
  assert (0 <= b * f) by (apply Z.mul_nonneg_nonneg; lia).
  assert (0 <= c * f) by (apply Z.mul_nonneg_nonneg; lia).
  rewrite !Hmul by lia. rewrite !Hadd by lia. reflexivity.
Qed.

Lemma loop_exact fuel : forall fp (s : loop_state real) (sz tz : loop_state Z) r q,
  ls_index s = ls_index sz ->
  ls_iters s = ls_iters sz ->
  0 <= ls_index sz ->
  read3 (ls_mem s) (ret_of fp) = inj3 inj (read3 (ls_mem sz) (ret_of fp)) ->
  read3 (ls_mem s) (mat_of fp) = inj3 inj (read3 (ls_mem sz) (mat_of fp)) ->
  full (read3 (ls_mem sz) (ret_of fp)) = M2.pow M2.base r ->
  full (read3 (ls_mem sz) (mat_of fp)) = M2.pow M2.base q ->
  fib (S (r + q * Z.to_nat (ls_index sz))) < B ->
  loop fuel (mat_of fp) (ret_of fp) sz = Some tz ->
  exists t,
    loop fuel (mat_of fp) (ret_of fp) s = Some t /\
    read3 (ls_mem t) (ret_of fp) = inj3 inj (read3 (ls_mem tz) (ret_of fp)) /\
    ls_iters t = ls_iters tz.
Proof.
  induction fuel as [|fuel IH];
    intros fp s sz tz r q Hi Hn H0 Vr Vq Pr Pq Hb Hz; [discriminate|].
  cbn [loop] in *.
  destruct (loop_body_view fp s) as (m1 & _ & R1 & Q1 & B1).
  destruct (loop_body_view fp sz) as (mz & _ & Rz & Qz & Bz).
  rewrite B1. rewrite Bz in Hz. rewrite Hi in *.
  pose proof (to_nat_shr1 H0) as E.
  pose proof (shr1_nonneg H0) as S0.
  set (bit := if Long.low_bit_set (ls_index sz) then 1%nat else 0%nat) in *.
  assert (Pr' : full (read3 mz (ret_of fp)) = M2.pow M2.base (r + q * bit)).
  { rewrite Rz. unfold next_ret, bit.
    destruct (Long.low_bit_set (ls_index sz)).
    - rewrite Nat.mul_1_r. now apply full_product3_pow.
    - now rewrite Nat.mul_0_r, Nat.add_0_r. }
  assert (Vr' : read3 m1 (ret_of fp) = inj3 inj (read3 mz (ret_of fp))).
  { rewrite R1, Rz, Vr, Vq. unfold next_ret.
    destruct (Long.low_bit_set (ls_index sz)); [|reflexivity].
    apply (product3_exact _ _ Pr Pq).
    apply Z.le_lt_trans with (2 := Hb). apply fib_mono. subst bit. nia. }
  destruct (Z.eqb_spec (Long.shr1 (ls_index sz)) 0) as [Ez|Enz].
  - injection Hz as <-. eexists; split; [reflexivity|].
    cbn [ls_mem ls_iters]. split; [exact Vr' | now rewrite Hn].
  - assert (S1 : (1 <= Z.to_nat (Long.shr1 (ls_index sz)))%nat) by lia.
    assert (Pq' : full (read3 mz (mat_of fp)) = M2.pow M2.base (2 * q)).
    { rewrite Qz. unfold next_mat.
      destruct (Z.eqb_spec (Long.shr1 (ls_index sz)) 0); [contradiction|].
      now apply full_square3_pow. }
    assert (Vq' : read3 m1 (mat_of fp) = inj3 inj (read3 mz (mat_of fp))).
    { rewrite Q1, Qz, Vq. unfold next_mat.
      destruct (Z.eqb_spec (Long.shr1 (ls_index sz)) 0); [contradiction|].
      rewrite !square3_product3.
      apply (product3_exact _ _ Pq Pq).
      apply Z.le_lt_trans with (2 := Hb). apply fib_mono. nia. }
    refine (IH fp (LoopState (Long.shr1 (ls_index sz)) m1 (S (ls_iters s)))
               (LoopState (Long.shr1 (ls_index sz)) mz (S (ls_iters sz)))
               tz (r + q * bit)%nat (2 * q)%nat _ _ _ Vr' Vq' Pr' Pq' _ Hz);
      cbn [ls_index ls_iters]; try reflexivity; try lia.
    apply Z.le_lt_trans with (2 := Hb). apply fib_mono. nia.
Qed.

(** Below its ceiling the program returns the exact Fibonacci number. *)
Lemma fibonacci_exact_below n fuel fp (m : mem real) :
  0 <= n <= Long.LONG_MAX -> (63 <= fuel)%nat ->
  fib (S (Z.to_nat n)) < B ->
  exists o,
    fibonacci fuel fp n m = Some o /\ value o = inj (fib (Z.to_nat n)).
Proof.
  intros Hn Hf Hb. unfold fibonacci.
  destruct exact as (E0 & E1 & _).
  destruct (Z.eqb_spec n 0) as [->|N0].
  { eexists; split; [reflexivity|]. exact E0. }
  destruct (Z.eqb_spec n 1) as [->|N1].
  { eexists; split; [reflexivity|]. exact E1. }
  assert (Hmin : Long.LONG_MIN < n) by (unfold Long.LONG_MIN, Long.bits; lia).
  rewrite dec_no_wrap by lia.
  destruct (@loop_from_base fuel fp (n - 1) (fun _ => 0) Hf ltac:(lia))
    as (tz & Hz & Pz & _).
  destruct (@loop_exact fuel fp (LoopState (n - 1) (frame_init fp m) 0)
              (LoopState (n - 1) (frame_init fp (fun _ => 0)) 0) tz 1%nat 1%nat)
    as (t & Ht & Vt & _); cbn [ls_index ls_iters ls_mem];
    try reflexivity; try lia.
  - rewrite !frame_init_ret. unfold inj3; cbn [e0 e1 e2]. now rewrite E0, E1.
  - rewrite !frame_init_mat. unfold inj3; cbn [e0 e1 e2]. now rewrite E0, E1.
  - rewrite frame_init_ret. apply full_base.
  - rewrite frame_init_mat. apply full_base.
  - replace (1 + 1 * Z.to_nat (n - 1))%nat with (Z.to_nat n) by lia. exact Hb.
  - exact Hz.
  - rewrite Ht. eexists; split; [reflexivity|]. cbn [value].
    change (load (ls_mem t) (ret_of fp) 1) with (e1 (read3 (ls_mem t) (ret_of fp))).
    rewrite Vt. unfold inj3; cbn [e1]. f_equal.
    change (e1 (read3 (ls_mem tz) (ret_of fp)))
      with (M2.m12 (full (read3 (ls_mem tz) (ret_of fp)))).
    rewrite Pz, M2_pow_base_m12. f_equal. lia.
Qed.

End Exact.

(** The integers are exact below every bound. *)
Lemma Z_exact_below B : exact_below (fun x : Z => x) B.
Proof. repeat split. Qed.

(** Below the ceiling the accumulator is the power itself, in any
    arithmetic that is exact on the integers below [B]. *)
Lemma accumulator_loop_exact_below
  {real} {ops : RealOps real} (inj : Z -> real) (B : Z)
  e fuel fp (m : mem real) :
  exact_below inj B ->
  0 <= e <= Long.LONG_MAX -> (63 <= fuel)%nat ->
  fib (S (S (Z.to_nat e))) < B ->
  exists acc,
    accumulator_loop fuel fp e m = Some (inj3 inj acc) /\
    full acc = M2.pow M2.base (S (Z.to_nat e)).
Proof.
  intros Hex He Hf Hb. unfold accumulator_loop.
  pose proof Hex as (E0 & E1 & _).
  destruct (@loop_from_base fuel fp e (fun _ => 0) Hf He) as (tz & Hz & Pz & _).
  destruct (@loop_exact real ops inj B Hex fuel fp
              (LoopState e (frame_init fp m) 0)
              (LoopState e (frame_init fp (fun _ => 0)) 0) tz 1%nat 1%nat)
    as (t & Ht & Vt & _); cbn [ls_index ls_iters ls_mem].
  - reflexivity.
  - reflexivity.
  - lia.
  - rewrite !frame_init_ret. unfold inj3; cbn [e0 e1 e2]. now rewrite E0, E1.
  - rewrite !frame_init_mat. unfold inj3; cbn [e0 e1 e2]. now rewrite E0, E1.
  - rewrite frame_init_ret. apply full_base.
  - rewrite frame_init_mat. apply full_base.
  - replace (1 + 1 * Z.to_nat e)%nat with (S (Z.to_nat e)) by lia. exact Hb.
  - exact Hz.
  - rewrite Ht. exists (read3 (ls_mem tz) (ret_of fp)).
    split; [now rewrite Vt | exact Pz].
Qed.

Lemma fib_power_entry k : fib k = M2.m12 (M2.pow M2.base k).
Proof. now rewrite M2_pow_base_m12. Qed.

(* ================================================================= *)
(** ** Properties of the program *)

(** C1.  For every index [0 <= n] that a [long] can hold, [fibonacci n]
    returns, under exact arithmetic, the n-th Fibonacci number, with F(0)=0 and
    F(1)=1; for [2 <= n] the accumulator ends as the n-th power of the base
    matrix, the value returned is the top-right element of that power, and
    the power is [[F(n+1) F(n); F(n) F(n-1)]]. *)
Theorem fibonacci_correct n fuel fp (m : mem Z) :
  0 <= n <= Long.LONG_MAX -> (63 <= fuel)%nat ->
  exists o,
    fibonacci fuel fp n m = Some o /\
    value o = fib (Z.to_nat n) /\
    fib 0 = 0 /\ fib 1 = 1 /\
    (2 <= n ->
     full (read3 (final_mem o) (ret_of fp)) = M2.pow M2.base (Z.to_nat n) /\
     value o = M2.m12 (M2.pow M2.base (Z.to_nat n)) /\
     M2.pow M2.base (Z.to_nat n)
     = M2.mk (fib (Z.to_nat n + 1)) (fib (Z.to_nat n))
             (fib (Z.to_nat n)) (fib (Z.to_nat n - 1))).
Proof.
  intros Hn Hf.
  destruct (fibonacci_exact fp m Hn Hf) as (o & Ho & Vo & Po).
  exists o. repeat split; try assumption.
  - now apply Po.
  - now rewrite M2_pow_base_m12.
  - destruct (Z.to_nat n) as [|k] eqn:E; [lia|].
    rewrite M2_pow_base_fib. f_equal.
    + f_equal. lia.
    + f_equal. lia.
Qed.

Lemma fibonacci_correct_witness :
  exists o,
    fibonacci 64 0%nat 10 (fun _ => 0) = Some o /\
    value o = 55.
Proof.
  destruct (@fibonacci_correct 10 64%nat 0%nat (fun _ => 0))
    as (o & Ho & Vo & _).
  - unfold Long.LONG_MAX, Long.bits. lia.
  - lia.
  - exists o. split; [exact Ho|]. rewrite Vo. reflexivity.
Defined.

(** C2 (amended).  Entered with exponent [0 <= e] and with the
    accumulator and the power-of-two array both holding the base matrix, the
    loop ends, and under exact arithmetic the accumulator holds the base
    matrix raised to the power [e + 1]: the base matrix multiplied by itself
    [e] times.  The same holds in any arithmetic that is exact on the
    non-negative integers below a ceiling [B], as long as [F(e+2) < B];
    above the ceiling the loop still ends, after the same number of passes,
    and nothing is said of the accumulator. *)
Theorem accumulator_loop_power :
  (forall e fuel fp (m : mem Z),
     0 <= e <= Long.LONG_MAX -> (63 <= fuel)%nat ->
     exists acc,
       accumulator_loop fuel fp e m = Some acc /\
       full acc = M2.pow M2.base (Z.to_nat e + 1) /\
       full acc = M2.mul M2.base (M2.pow M2.base (Z.to_nat e))) /\
  (forall real (ops : RealOps real) (inj : Z -> real) (B : Z)
          e fuel fp (m : mem real),
     exact_below inj B ->
     0 <= e <= Long.LONG_MAX -> (63 <= fuel)%nat ->
     fib (Z.to_nat e + 2) < B ->
     exists acc,
       accumulator_loop fuel fp e m = Some (inj3 inj acc) /\
       full acc = M2.pow M2.base (Z.to_nat e + 1) /\
       full acc = M2.mul M2.base (M2.pow M2.base (Z.to_nat e))) /\
  (forall real (ops : RealOps real) e fuel fp (m : mem real),
     0 <= e <= Long.LONG_MAX -> (63 <= fuel)%nat ->
     exists acc, accumulator_loop fuel fp e m = Some acc).
Proof.
  split; [|split].
  - intros e fuel fp m He Hf. unfold accumulator_loop.
    destruct (@loop_from_base fuel fp e m Hf He) as (t & Ht & Pt & _).
    rewrite Ht. eexists; split; [reflexivity|].
    rewrite Pt, Nat.add_1_r. split; reflexivity.
  - intros real ops inj B e fuel fp m Hex He Hf Hb.
    replace (Z.to_nat e + 2)%nat with (S (S (Z.to_nat e))) in Hb by lia.
    destruct (accumulator_loop_exact_below fp m Hex He Hf Hb) as (acc & Ha & Pa).
    exists acc. split; [exact Ha|].
    rewrite Pa, Nat.add_1_r. split; reflexivity.
  - intros real ops e fuel fp m He Hf. unfold accumulator_loop.
    destruct (@loop_terminates real ops fuel fp
                (LoopState e (frame_init fp m) 0)) as (t & Ht & _);
      cbn [ls_index].
    + lia.
    + split; [lia|].
      apply Z.lt_le_trans with (2 ^ 63);
        [unfold Long.LONG_MAX, Long.bits in He; lia|].
      apply Z.pow_le_mono_r; lia.
    + rewrite Ht. eexists; reflexivity.
Qed.

Lemma accumulator_loop_power_witness :
  (exists acc,
     accumulator_loop 64 0%nat 15 (fun _ => 0) = Some acc /\
     full acc = M2.pow M2.base 16) /\
  (exists acc,
     accumulator_loop 64 0%nat 15 (fun _ => 0) = Some (inj3 (fun x => x) acc) /\
     full acc = M2.pow M2.base 16).
Proof.
  split.
  - destruct (proj1 accumulator_loop_power 15 64%nat 0%nat (fun _ => 0))
      as (acc & Ha & Pa & _).
    + unfold Long.LONG_MAX, Long.bits. lia.
    + lia.
    + exists acc. split; [exact Ha | exact Pa].
  - destruct (proj1 (proj2 accumulator_loop_power) Z Z_exact (fun x => x)
                (2 ^ 14) 15 64%nat 0%nat (fun _ => 0))
      as (acc & Ha & Pa & _).
    + apply Z_exact_below.
    + unfold Long.LONG_MAX, Long.bits. lia.
    + lia.
    + rewrite fib_power_entry. vm_compute. reflexivity.
    + exists acc. split; [exact Ha | exact Pa].
Defined.

(** C2 (counterexample).  Entered with exponent 1, the loop leaves the
    square of the base matrix in the accumulator, and with no amount of fuel
    its first power: the accumulator is not the base matrix raised to the
    exponent. *)
Lemma accumulator_loop_not_eth_power :
  accumulator_loop 64 0%nat 1 (fun _ => 0) = Some (Mat3 2 1 1) /\
  ~ (exists fuel acc,
       accumulator_loop fuel 0%nat 1 (fun _ => 0) = Some acc /\
       full acc = M2.pow M2.base 1).
Proof.
  split; [reflexivity|].
  intros (fuel & acc & H & E).
  destruct fuel as [|fuel]; [discriminate|].
  vm_compute in H. injection H as <-. discriminate E.
Qed.

(** C3.  Squaring the matrix of an array with [matrix_to2] leaves the
    same three values as multiplying the array by itself with
    [matrix_multiply], in any arithmetic and for any contents of the array
    (the powers of the base matrix among them), wherever the product is
    written. *)
Theorem matrix_to2_is_self_product
  {real} {ops : RealOps real} (m : mem real) (p out : ptr) :
  read3 (matrix_to2 p m) p = read3 (matrix_multiply out p p m) out /\
  read3 (matrix_to2 p m) p = read3 (matrix_multiply p p p m) p.
Proof.
  now rewrite !read3_matrix_multiply, read3_matrix_to2, square3_product3.
Qed.

(** C4.  When the arrays (a,b,c) and (d,e,f) both hold powers of the base
    matrix, the top-right and bottom-left entries of their full 2x2 product
    agree, [a*e + b*f = b*d + c*e]; so the three values [matrix_multiply]
    writes are the full product, which is again a power of the base matrix.
    And at the start of every pass of the loop of [fibonacci], both arrays
    hold powers of the base matrix, and so they do when the loop is left. *)
Theorem powers_multiply_symmetric :
  (forall (s t : matrix Z) j k,
     full s = M2.pow M2.base j -> full t = M2.pow M2.base k ->
     e0 s * e1 t + e1 s * e2 t = e1 s * e0 t + e2 s * e1 t /\
     M2.m12 (M2.mul (full s) (full t)) = M2.m21 (M2.mul (full s) (full t)) /\
     (forall (m : mem Z) out in1 in2,
        read3 m in1 = s -> read3 m in2 = t ->
        full (read3 (matrix_multiply out in1 in2 m) out)
        = M2.mul (full s) (full t)) /\
     M2.mul (full s) (full t) = M2.pow M2.base (j + k)) /\
  (forall index fp (m : mem Z) k st,
     loop_at k (mat_of fp) (ret_of fp) (LoopState index (frame_init fp m) 0)
     = Some st ->
     exists r q,
       full (read3 (ls_mem st) (ret_of fp)) = M2.pow M2.base r /\
       full (read3 (ls_mem st) (mat_of fp)) = M2.pow M2.base q) /\
  (forall index fp (m : mem Z) fuel st,
     loop fuel (mat_of fp) (ret_of fp) (LoopState index (frame_init fp m) 0)
     = Some st ->
     exists r q,
       full (read3 (ls_mem st) (ret_of fp)) = M2.pow M2.base r /\
       full (read3 (ls_mem st) (mat_of fp)) = M2.pow M2.base q).
Proof.
  split.
  - intros s t j k Hs Ht.
    assert (C : e0 s * e1 t + e1 s * e2 t = e1 s * e0 t + e2 s * e1 t).
    { apply commuting_product_symmetric. rewrite Hs, Ht. apply M2_pow_commute. }
    repeat split.
    + exact C.
    + exact C.
    + intros m out in1 in2 <- <-. rewrite read3_matrix_multiply.
      now apply full_product3.
    + now rewrite Hs, Ht, M2_pow_add.
  - split; intros index fp m k st H.
    + refine (@loop_at_powers k fp _ st 1%nat 1%nat _ _ H); cbn [ls_mem].
      * rewrite frame_init_ret. apply full_base.
      * rewrite frame_init_mat. apply full_base.
    + refine (@loop_result_powers k fp _ st 1%nat 1%nat _ _ H); cbn [ls_mem].
      * rewrite frame_init_ret. apply full_base.
      * rewrite frame_init_mat. apply full_base.
Qed.

Lemma powers_multiply_symmetric_witness :
  2 * 2 + 1 * 1 = 1 * 3 + 1 * 2 /\
  M2.mul (full (Mat3 2 1 1)) (full (Mat3 3 2 1)) = M2.pow M2.base 5.
Proof.
  destruct (proj1 powers_multiply_symmetric (Mat3 2 1 1) (Mat3 3 2 1) 2%nat 3%nat)
    as (C & _ & _ & P); [reflexivity | reflexivity |].
  split; [exact C | exact P].
Defined.

(** C5.  For every negative index above [LONG_MIN] (so for some negative
    index), the index with which the loop is entered is negative; the
    right shift copies the sign bit, so the shifted value is negative, hence
    not zero, at the start of every pass, in any arithmetic: the loop never
    reaches its [break] and [fibonacci] returns for no amount of fuel. *)
Theorem negative_index_diverges
  {real} {ops : RealOps real} index fp (m : mem real) :
  Long.LONG_MIN < index < 0 ->
  Long.dec index < 0 /\
  (forall k, exists st,
     loop_at k (mat_of fp) (ret_of fp)
       (LoopState (Long.dec index) (frame_init fp m) 0) = Some st /\
     ls_index st <> 0 /\ Long.shr1 (ls_index st) <> 0) /\
  (forall fuel, fibonacci fuel fp index m = None).
Proof.
  intros Hi.
  assert (Hd : Long.dec index < 0).
  { rewrite dec_no_wrap; [lia|]. unfold Long.LONG_MAX, Long.bits. lia. }
  split; [exact Hd|]. split.
  - intros k.
    destruct (loop_at_negative k fp
                (LoopState (Long.dec index) (frame_init fp m) 0) Hd)
      as (st & Hst & Hneg).
    exists st. split; [exact Hst|].
    pose proof (shr1_negative Hneg). lia.
  - intros fuel. unfold fibonacci.
    destruct (Z.eqb_spec index 0); [lia|].
    destruct (Z.eqb_spec index 1); [lia|].
    now rewrite loop_negative.
Qed.

Lemma negative_index_diverges_witness :
  Long.dec (-1) = -2 /\
  forall fuel, fibonacci fuel 0%nat (-1) (fun _ => 0) = None.
Proof.
  split; [reflexivity|].
  apply (@negative_index_diverges Z Z_exact (-1) 0%nat (fun _ => 0)).
  unfold Long.LONG_MIN, Long.bits. lia.
Defined.

(** C6.  For every index [0 <= n] of a [long] and in any arithmetic,
    [fibonacci n] returns; it makes no pass through the loop for [n < 2], and
    for [2 <= n] exactly as many as [n - 1] has binary digits, which is at
    most [log2 n + 1], and that much fuel is enough. *)
Theorem fibonacci_terminates_log
  {real} {ops : RealOps real} n fuel fp (m : mem real) :
  0 <= n <= Long.LONG_MAX -> (bit_length (n - 1) <= fuel)%nat ->
  exists o,
    fibonacci fuel fp n m = Some o /\
    (n < 2 -> iterations o = 0%nat) /\
    (2 <= n ->
     iterations o = bit_length (n - 1) /\
     (iterations o <= bit_length (n - 1))%nat /\
     Z.of_nat (iterations o) <= Z.log2 n + 1) /\
    (iterations o <= 63)%nat.
Proof.
  intros Hn Hf. unfold fibonacci.
  destruct (Z.eqb_spec n 0) as [->|N0].
  { eexists; split; [reflexivity|]. cbn. repeat split; lia. }
  destruct (Z.eqb_spec n 1) as [->|N1].
  { eexists; split; [reflexivity|]. cbn. repeat split; lia. }
  assert (Hmin : Long.LONG_MIN < n) by (unfold Long.LONG_MIN, Long.bits; lia).
  rewrite dec_no_wrap by lia.
  pose proof (bit_length_pos (x := n - 1) ltac:(lia)) as Hpos.
  pose proof (bit_length_bound (x := n - 1) ltac:(lia)) as Hb.
  destruct (@loop_terminates real ops fuel fp
              (LoopState (n - 1) (frame_init fp m) 0)) as (t & Ht & Nt);
    cbn [ls_index ls_iters] in *.
  - lia.
  - split; [lia|].
    apply Z.lt_le_trans with (1 := Hb). apply Z.pow_le_mono_r; lia.
  - rewrite Ht. eexists; split; [reflexivity|]. cbn [iterations].
    assert (E : ls_iters t = bit_length (n - 1)) by lia.
    assert (L : Z.of_nat (bit_length (n - 1)) <= Z.log2 n + 1).
    { unfold bit_length. destruct (Z.leb_spec (n - 1) 0); [lia|].
      pose proof (Z.log2_nonneg (n - 1)).
      pose proof (Z.log2_le_mono (n - 1) n ltac:(lia)). lia. }
    assert (U : Z.log2 n + 1 <= 63).
    { assert (Z.log2 n < 63); [|lia].
      apply Z.log2_lt_pow2; [lia|]. unfold Long.LONG_MAX, Long.bits in Hn. lia. }
    rewrite E. repeat split; lia.
Qed.

Lemma fibonacci_terminates_log_witness :
  exists o,
    fibonacci 5 0%nat 20 (fun _ => 0) = Some o /\ iterations o = 5%nat.
Proof.
  destruct (@fibonacci_terminates_log Z Z_exact 20 5%nat 0%nat (fun _ => 0))
    as (o & Ho & _ & Io & _).
  - unfold Long.LONG_MAX, Long.bits. lia.
  - vm_compute. lia.
  - exists o. split; [exact Ho|].
    destruct (Io ltac:(lia)) as (E & _). rewrite E. reflexivity.
Defined.

(** C7.  [fibonacci] returns the literal 0 for index 0 and the literal 1 for
    index 1 without entering the loop (no pass, and no fuel needed), and the
    exact values F(2)=1, F(3)=2, F(10)=55 and F(20)=6765, in every
    arithmetic that is exact on the integers below [2^14]: that of every
    floating-point type with a significand of 14 bits or more. *)
Theorem fibonacci_small_values
  {real} {ops : RealOps real} (inj : Z -> real) fp (m : mem real) :
  exact_below inj (2 ^ 14) ->
  (forall fuel,
     fibonacci fuel fp 0 m = Some (Outcome (inj 0) (frame_init fp m) 0)) /\
  (forall fuel,
     fibonacci fuel fp 1 m = Some (Outcome (inj 1) (frame_init fp m) 0)) /\
  (forall fuel, (63 <= fuel)%nat ->
     option_map value (fibonacci fuel fp 2 m) = Some (inj 1) /\
     option_map value (fibonacci fuel fp 3 m) = Some (inj 2) /\
     option_map value (fibonacci fuel fp 10 m) = Some (inj 55) /\
     option_map value (fibonacci fuel fp 20 m) = Some (inj 6765)).
Proof.
  intros Hex.
  assert (V : forall n fuel, (63 <= fuel)%nat -> 0 <= n <= 20 ->
              option_map value (fibonacci fuel fp n m)
              = Some (inj (fib (Z.to_nat n)))).
  { intros n fuel Hf Hn.
    destruct (@fibonacci_exact_below real ops inj (2 ^ 14) Hex n fuel fp m)
      as (o & Ho & Vo); try assumption.
    - unfold Long.LONG_MAX, Long.bits. lia.
    - apply Z.le_lt_trans with (fib 21); [|reflexivity].
      apply fib_mono. lia.
    - rewrite Ho. cbn [option_map]. now rewrite Vo. }
  destruct Hex as (E0 & E1 & _).
  split; [|split].
  - intros fuel. unfold fibonacci. cbn. now rewrite E0.
  - intros fuel. unfold fibonacci. cbn. now rewrite E1.
  - intros fuel Hf. repeat split.
    + apply (V 2 fuel Hf). lia.
    + apply (V 3 fuel Hf). lia.
    + apply (V 10 fuel Hf). lia.
    + apply (V 20 fuel Hf). lia.
Qed.

Lemma fibonacci_small_values_witness :
  exact_below (fun x : Z => x) (2 ^ 14) /\
  fibonacci 0 0%nat 0 (fun _ => 0)
  = Some (Outcome 0 (frame_init 0%nat (fun _ => 0)) 0) /\
  option_map value (fibonacci 64 0%nat 20 (fun _ => 0)) = Some 6765.
Proof.
  pose proof (@fibonacci_small_values Z Z_exact (fun x => x) 0%nat (fun _ => 0)
                (Z_exact_below (2 ^ 14))) as (H0 & _ & H).
  split; [apply Z_exact_below|]. split; [apply H0|].
  apply (H 64%nat). lia.
Defined.

(** C8.  Under exact arithmetic, for every index [2 <= n] of a [long],
    [fibonacci n = fibonacci (n-1) + fibonacci (n-2)]. *)
Theorem fibonacci_recurrence n fuel fp (m : mem Z) :
  2 <= n <= Long.LONG_MAX -> (63 <= fuel)%nat ->
  exists o o1 o2,
    fibonacci fuel fp n m = Some o /\
    fibonacci fuel fp (n - 1) m = Some o1 /\
    fibonacci fuel fp (n - 2) m = Some o2 /\
    value o = value o1 + value o2.
Proof.
  intros Hn Hf.
  destruct (@fibonacci_exact n fuel fp m ltac:(lia) Hf) as (o & Ho & Vo & _).
  destruct (@fibonacci_exact (n - 1) fuel fp m ltac:(lia) Hf) as (o1 & Ho1 & Vo1 & _).
  destruct (@fibonacci_exact (n - 2) fuel fp m ltac:(lia) Hf) as (o2 & Ho2 & Vo2 & _).
  exists o, o1, o2. repeat split; try assumption.
  rewrite Vo, Vo1, Vo2.
  replace (Z.to_nat n) with (S (S (Z.to_nat (n - 2)))) by lia.
  replace (Z.to_nat (n - 1)) with (S (Z.to_nat (n - 2))) by lia.
  apply fib_SS.
Qed.

Lemma fibonacci_recurrence_witness :
  exists o o1 o2,
    fibonacci 64 0%nat 20 (fun _ => 0) = Some o /\
    fibonacci 64 0%nat 19 (fun _ => 0) = Some o1 /\
    fibonacci 64 0%nat 18 (fun _ => 0) = Some o2 /\
    value o = value o1 + value o2.
Proof.
  apply (@fibonacci_recurrence 20 64%nat 0%nat (fun _ => 0)).
  - unfold Long.LONG_MAX, Long.bits. lia.
  - lia.
Defined.

(** C9.  A call of [fibonacci] depends on its index only: for the same
    index, two calls in any two memories and with their frames at any two
    places agree, with the same fuel, on whether they return; whenever both
    return, with whatever fuel, they return the same value after the same
    number of passes; and a call changes no cell outside its own frame. *)
Theorem fibonacci_deterministic
  {real} {ops : RealOps real} index fp1 fp2 (m1 m2 : mem real) :
  (forall fuel,
     option_map value (fibonacci fuel fp1 index m1)
     = option_map value (fibonacci fuel fp2 index m2)) /\
  (forall fuel1 fuel2 o1 o2,
     fibonacci fuel1 fp1 index m1 = Some o1 ->
     fibonacci fuel2 fp2 index m2 = Some o2 ->
     value o1 = value o2 /\ iterations o1 = iterations o2) /\
  (forall fuel o a,
     fibonacci fuel fp1 index m1 = Some o ->
     outside_frame fp1 a -> final_mem o a = m1 a).
Proof.
  assert (Both : forall fuel1 fuel2 o1 o2,
     fibonacci fuel1 fp1 index m1 = Some o1 ->
     fibonacci fuel2 fp2 index m2 = Some o2 ->
     value o1 = value o2 /\ iterations o1 = iterations o2).
  { unfold fibonacci. intros fuel1 fuel2 o1 o2.
    destruct (index =? 0).
    { intros H1 H2. injection H1 as <-. injection H2 as <-. now split. }
    destruct (index =? 1).
    { intros H1 H2. injection H1 as <-. injection H2 as <-. now split. }
    destruct (loop fuel1 _ _ _) as [t1|] eqn:L1; [|discriminate].
    destruct (loop fuel2 _ _ _) as [t2|] eqn:L2; [|discriminate].
    intros H1 H2. injection H1 as <-. injection H2 as <-.
    cbn [value iterations].
    destruct (loop_agree _ _ (frame_init_same_view fp1 fp2 m1 m2 _) L1 L2)
      as (_ & Hn & Hr & _).
    split; [|exact Hn].
    change (e1 (read3 (ls_mem t1) (ret_of fp1)) = e1 (read3 (ls_mem t2) (ret_of fp2))).
    now rewrite Hr. }
  split; [|split; [exact Both|]].
  - intros fuel.
    destruct (fibonacci fuel fp1 index m1) as [o1|] eqn:F1,
             (fibonacci fuel fp2 index m2) as [o2|] eqn:F2; cbn [option_map].
    + f_equal. exact (proj1 (Both _ _ _ _ F1 F2)).
    + exfalso. revert F1 F2. unfold fibonacci.
      destruct (index =? 0); [discriminate|].
      destruct (index =? 1); [discriminate|].
      destruct (loop fuel (mat_of fp2) _ _) eqn:L2; [discriminate|].
      apply (loop_ends_agree _ (frame_init_same_view fp2 fp1 m2 m1 _)) in L2.
      now rewrite L2.
    + exfalso. revert F1 F2. unfold fibonacci.
      destruct (index =? 0); [discriminate|].
      destruct (index =? 1); [discriminate|].
      destruct (loop fuel (mat_of fp1) _ _) eqn:L1; [discriminate|].
      apply (loop_ends_agree _ (frame_init_same_view fp1 fp2 m1 m2 _)) in L1.
      now rewrite L1.
    + reflexivity.
  - intros fuel o a. unfold fibonacci.
    destruct (index =? 0).
    { intros H O. injection H as <-. cbn. now apply frame_init_outside. }
    destruct (index =? 1).
    { intros H O. injection H as <-. cbn. now apply frame_init_outside. }
    destruct (loop fuel _ _ _) as [t|] eqn:L; [|discriminate].
    intros H O. injection H as <-. cbn [final_mem].
    rewrite (@loop_outside _ _ _ _ _ _ L a O). cbn [ls_mem].
    now apply frame_init_outside.
Qed.

Lemma fibonacci_deterministic_witness :
  exists o1 o2,
    fibonacci 5 0%nat 20 (fun _ => 0) = Some o1 /\
    fibonacci 9 7%nat 20 (fun a => Z.of_nat a) = Some o2 /\
    value o1 = value o2 /\ iterations o1 = iterations o2.
Proof.
  destruct (fibonacci 5 0%nat 20 (fun _ => 0)) as [o1|] eqn:F1;
    [|vm_compute in F1; discriminate F1].
  destruct (fibonacci 9 7%nat 20 (fun a => Z.of_nat a)) as [o2|] eqn:F2;
    [|vm_compute in F2; discriminate F2].
  exists o1, o2. split; [reflexivity|]. split; [reflexivity|].
  exact (proj1 (proj2 (@fibonacci_deterministic Z Z_exact 20 0%nat 7%nat
                         (fun _ => 0) (fun a => Z.of_nat a)))
           5%nat 9%nat o1 o2 F1 F2).
Defined.

(** C10.  [matrix_multiply] leaves in [out] the product of the values its
    two inputs held before the call, whatever cells [out] shares with them:
    also when [out] is the first input, as in the call
    [matrix_multiply(ret, ret, mat)] of [fibonacci], which moreover leaves
    [mat] and every cell outside [ret] as they were.  All six loads come
    before the first store. *)
Theorem matrix_multiply_aliased
  {real} {ops : RealOps real} (m : mem real) (out in1 in2 fp : ptr) :
  read3 (matrix_multiply out in1 in2 m) out
  = product3 (read3 m in1) (read3 m in2) /\
  read3 (matrix_multiply in1 in1 in2 m) in1
  = product3 (read3 m in1) (read3 m in2) /\
  read3 (matrix_multiply (ret_of fp) (ret_of fp) (mat_of fp) m) (ret_of fp)
  = product3 (read3 m (ret_of fp)) (read3 m (mat_of fp)) /\
  read3 (matrix_multiply (ret_of fp) (ret_of fp) (mat_of fp) m) (mat_of fp)
  = read3 m (mat_of fp) /\
  (forall a, outside3 out a -> matrix_multiply out in1 in2 m a = m a).
Proof.
  repeat split.
  - apply read3_matrix_multiply.
  - apply read3_matrix_multiply.
  - apply read3_matrix_multiply.
  - apply read3_matrix_multiply_other, frame_disjoint'.
  - intros a O. now apply matrix_multiply_outside.
Qed.

(* ================================================================= *)
(** ** Further properties of the routines *)

Lemma low_bit_set_odd x : Long.low_bit_set x = Z.odd x.
Proof.
  rewrite low_bit_set_mod2, Zmod_odd. now destruct (Z.odd x).
Qed.

(** The loop in memory and the loop on values go the same way. *)
Lemma loop_refines {real} {ops : RealOps real} fuel :
  forall fp (s : loop_state real),
  option_map (fun t => read3 (ls_mem t) (ret_of fp))
             (loop fuel (mat_of fp) (ret_of fp) s)
  = spec_accumulator_loop fuel (ls_index s)
      (read3 (ls_mem s) (ret_of fp)) (read3 (ls_mem s) (mat_of fp)).
Proof.
  induction fuel as [|fuel IH]; intros fp s; [reflexivity|].
  cbn [loop spec_accumulator_loop].
  destruct (loop_body_view fp s) as (m' & _ & R' & Q' & B).
  rewrite B, <- shr1_div2, <- low_bit_set_odd.
  unfold next_ret, next_mat in *.
  destruct (Long.shr1 (ls_index s) =? 0).
  - cbn [option_map ls_mem]. now rewrite R'.
  - rewrite IH. cbn [ls_index ls_mem]. now rewrite R', Q'.
Qed.

(** The power-of-two array when the loop is left: it has been squared once
    for every pass but the last. *)
Lemma loop_mat_power fuel : forall fp (s : loop_state Z) q,
  fuel <> 0%nat ->
  0 <= ls_index s < 2 ^ Z.of_nat fuel ->
  full (read3 (ls_mem s) (mat_of fp)) = M2.pow M2.base q ->
  exists t,
    loop fuel (mat_of fp) (ret_of fp) s = Some t /\
    full (read3 (ls_mem t) (mat_of fp))
    = M2.pow M2.base (q * 2 ^ (Nat.max 1 (bit_length (ls_index s)) - 1)).
Proof.
  induction fuel as [|fuel IH]; intros fp s q Hf Hi Hq; [contradiction|].
  destruct (loop_body_view fp s) as (m' & _ & _ & Q' & B).
  cbn [loop]. rewrite B. unfold next_mat in Q'.
  destruct (Z.eqb_spec (Long.shr1 (ls_index s)) 0) as [Hz|Hnz].
  - eexists; split; [reflexivity|]. cbn [ls_mem].
    rewrite (bit_length_small (proj1 Hi) Hz), Q', Hq. f_equal. cbn. lia.
  - pose proof (shr1_nonneg (proj1 Hi)) as Hs0.
    assert (Hs1 : Long.shr1 (ls_index s) < 2 ^ Z.of_nat fuel).
    { rewrite shr1_div2. apply Z.div_lt_upper_bound; [lia|].
      rewrite <- Z.pow_succ_r by lia. rewrite <- Nat2Z.inj_succ. apply Hi. }
    assert (Hf' : fuel <> 0%nat)
      by (intros ->; change (2 ^ Z.of_nat 0) with 1 in Hs1; lia).
    assert (Hq' : full (read3 m' (mat_of fp)) = M2.pow M2.base (2 * q)).
    { rewrite Q'. now apply full_square3_pow. }
    destruct (IH fp (LoopState (Long.shr1 (ls_index s)) m' (S (ls_iters s)))
                 (2 * q)%nat Hf' (conj Hs0 Hs1) Hq') as (t & Ht & Pt).
    exists t. cbn [ls_mem ls_index] in *. split; [exact Ht|].
    rewrite Pt, (bit_length_shr1 (proj1 Hi) Hnz). f_equal.
    pose proof (bit_length_pos (x := Long.shr1 (ls_index s)) ltac:(lia)) as Hp.
    destruct (bit_length (Long.shr1 (ls_index s))) as [|b]; [lia|].
    replace (Nat.max 1 (S (S b)) - 1)%nat with (S b) by lia.
    replace (Nat.max 1 (S b) - 1)%nat with b by lia.
    rewrite Nat.pow_succ_r'. lia.
Qed.

(** A power of the base matrix is symmetric, its top-left entry is the sum
    of the two others, and its determinant is 1 or -1. *)
Lemma pow_base_shape k :
  let P := M2.pow M2.base k in
  M2.m12 P = M2.m21 P /\
  M2.m11 P = M2.m12 P + M2.m22 P /\
  det P = (-1) ^ Z.of_nat k.
Proof.
  induction k as [|k (Sy & A & D)].
  - now cbn.
  - change (M2.pow M2.base (S k)) with (M2.mul M2.base (M2.pow M2.base k)).
    rewrite Nat2Z.inj_succ, Z.pow_succ_r by lia. rewrite <- D.
    destruct (M2.pow M2.base k) as [a b c d].
    unfold det, M2.mul, M2.base in *; cbn [M2.m11 M2.m12 M2.m21 M2.m22] in *.
    subst. repeat split; ring.
Qed.

Lemma fib_as_power k : fib k = M2.m12 (M2.pow M2.base k).
Proof. now rewrite M2_pow_base_m12. Qed.

(* ----------------------------------------------------------------- *)

(** X1.  Under exact arithmetic [matrix_to2] squares the symmetric matrix of
    any array, not only of a power of the base matrix: the three values it
    leaves are the full 2x2 square, in place, and no other cell changes. *)
Theorem matrix_to2_squares_any (m : mem Z) (p : ptr) :
  full (read3 (matrix_to2 p m) p)
  = M2.mul (full (read3 m p)) (full (read3 m p)) /\
  (forall a, outside3 p a -> matrix_to2 p m a = m a).
Proof.
  split.
  - rewrite read3_matrix_to2, square3_product3.
    apply full_product3. ring.
  - intros a O. now apply matrix_to2_outside.
Qed.

(** X2.  Under exact arithmetic the three values [matrix_multiply] writes
    are the full 2x2 product of its operands exactly when the operands
    commute; and there are symmetric operands that do not, for which the
    result is not the product. *)
Theorem matrix_multiply_full_iff_commute :
  (forall (m : mem Z) (out in1 in2 : ptr),
     full (read3 (matrix_multiply out in1 in2 m) out)
     = M2.mul (full (read3 m in1)) (full (read3 m in2))
     <->
     M2.mul (full (read3 m in1)) (full (read3 m in2))
     = M2.mul (full (read3 m in2)) (full (read3 m in1))) /\
  (let m := init3 (init3 (fun _ => 0) 0%nat 1 1 0) 3%nat 1 0 0 in
   read3 (matrix_multiply 6%nat 0%nat 3%nat m) 6%nat = Mat3 1 0 0 /\
   M2.mul (full (read3 m 0%nat)) (full (read3 m 3%nat)) = M2.mk 1 0 1 0).
Proof.
  split; [|split; reflexivity].
  intros m out in1 in2. rewrite read3_matrix_multiply.
  destruct (read3 m in1) as [a b c], (read3 m in2) as [d e f].
  unfold full, product3, M2.mul;
    cbn [e0 e1 e2 M2.m11 M2.m12 M2.m21 M2.m22 rplus rmult Z_exact].
  split; intros H.
  - pose proof (f_equal M2.m21 H) as H21. cbn [M2.m21] in H21.
    f_equal; lia.
  - pose proof (f_equal M2.m12 H) as H12. cbn [M2.m12] in H12.
    f_equal; lia.
Qed.

(** X3.  In any arithmetic the loop of [fibonacci], with its two arrays
    updated in place and the accumulator passed as both output and input,
    computes what the value-level square-and-multiply of the design
    computes, for every exponent and every amount of fuel; so does
    [fibonacci], past its two base cases. *)
Theorem loop_refines_design
  {real} {ops : RealOps real} fuel fp (m : mem real) :
  (forall e,
     accumulator_loop fuel fp e m = spec_accumulator_loop fuel e base3 base3) /\
  (forall index, index <> 0 -> index <> 1 ->
     option_map value (fibonacci fuel fp index m)
     = option_map (@e1 real)
         (spec_accumulator_loop fuel (Long.dec index) base3 base3)).
Proof.
  split.
  - intros e. unfold accumulator_loop.
    pose proof (loop_refines fuel fp (LoopState e (frame_init fp m) 0)) as R.
    cbn [ls_index ls_mem] in R.
    rewrite frame_init_ret, frame_init_mat in R.
    unfold base3. rewrite <- R.
    now destruct (loop fuel _ _ _).
  - intros index N0 N1. unfold fibonacci.
    destruct (Z.eqb_spec index 0); [contradiction|].
    destruct (Z.eqb_spec index 1); [contradiction|].
    pose proof (loop_refines fuel fp
                  (LoopState (Long.dec index) (frame_init fp m) 0)) as R.
    cbn [ls_index ls_mem] in R.
    rewrite frame_init_ret, frame_init_mat in R.
    unfold base3. rewrite <- R.
    now destruct (loop fuel _ _ _).
Qed.

Lemma loop_refines_design_witness :
  option_map value (fibonacci 64 0%nat 20 (fun _ => 0))
  = option_map (@e1 Z) (spec_accumulator_loop 64 19 base3 base3).
Proof.
  apply (proj2 (@loop_refines_design Z Z_exact 64%nat 0%nat (fun _ => 0)) 20);
    lia.
Defined.

(** X4.  The precision ceiling.  In an arithmetic that is exact on the
    non-negative integers below [B], [fibonacci n] returns the Fibonacci
    number F(n) itself for every index [0 <= n] of a [long] with
    [F(n+1) < B]. *)
Theorem fibonacci_exact_up_to_ceiling
  {real} {ops : RealOps real} (inj : Z -> real) (B : Z) n fuel fp (m : mem real) :
  exact_below inj B ->
  0 <= n <= Long.LONG_MAX -> (63 <= fuel)%nat ->
  fib (Z.to_nat n + 1) < B ->
  exists o,
    fibonacci fuel fp n m = Some o /\ value o = inj (fib (Z.to_nat n)).
Proof.
  intros Hex Hn Hf Hb. rewrite Nat.add_1_r in Hb.
  exact (fibonacci_exact_below Hex fp m Hn Hf Hb).
Qed.

Lemma fibonacci_exact_up_to_ceiling_witness :
  exists o,
    fibonacci 64 0%nat 30 (fun _ => 0) = Some o /\ value o = 832040.
Proof.
  destruct (@fibonacci_exact_up_to_ceiling Z Z_exact (fun x => x) (2 ^ 24)
              30 64%nat 0%nat (fun _ => 0)) as (o & Ho & Vo).
  - apply Z_exact_below.
  - unfold Long.LONG_MAX, Long.bits. lia.
  - lia.
  - rewrite fib_as_power. vm_compute. reflexivity.
  - exists o. split; [exact Ho|]. rewrite Vo, fib_as_power. reflexivity.
Defined.

(** X5.  The table of the source.  With a significand of 53 bits (the
    64-bit numbers of the table) every index from 0 through 77 gives the
    exact Fibonacci number, and with a significand of 64 bits (the 80-bit
    numbers) every index through 92; F(79) and F(94) are the first
    Fibonacci numbers that need more than 53 and 64 bits. *)
Theorem fibonacci_exact_through_77_and_92
  {real} {ops : RealOps real} (inj : Z -> real) n fuel fp (m : mem real) :
  (63 <= fuel)%nat ->
  (exact_below inj (2 ^ 53) -> 0 <= n <= 77 ->
   option_map value (fibonacci fuel fp n m) = Some (inj (fib (Z.to_nat n)))) /\
  (exact_below inj (2 ^ 64) -> 0 <= n <= 92 ->
   option_map value (fibonacci fuel fp n m) = Some (inj (fib (Z.to_nat n)))) /\
  fib 78 < 2 ^ 53 <= fib 79 /\
  fib 93 < 2 ^ 64 <= fib 94.
Proof.
  intros Hf.
  assert (V : forall B top, (top <= 100)%nat ->
              exact_below inj B -> fib (S top) < B ->
              0 <= n <= Z.of_nat top ->
              option_map value (fibonacci fuel fp n m)
              = Some (inj (fib (Z.to_nat n)))).
  { intros B top Ht Hex Hb Hn.
    destruct (@fibonacci_exact_below real ops inj B Hex n fuel fp m)
      as (o & Ho & Vo).
    - unfold Long.LONG_MAX, Long.bits. lia.
    - exact Hf.
    - apply Z.le_lt_trans with (2 := Hb). apply fib_mono. lia.
    - rewrite Ho. cbn [option_map]. now rewrite Vo. }
  assert (F78 : fib 78 < 2 ^ 53)
    by (rewrite fib_as_power; vm_compute; reflexivity).
  assert (F79 : 2 ^ 53 <= fib 79)
    by (rewrite fib_as_power; vm_compute; discriminate).
  assert (F93 : fib 93 < 2 ^ 64)
    by (rewrite fib_as_power; vm_compute; reflexivity).
  assert (F94 : 2 ^ 64 <= fib 94)
    by (rewrite fib_as_power; vm_compute; discriminate).
  split; [|split; [|split; split]].
  - intros Hex Hn. exact (V (2 ^ 53) 77%nat ltac:(lia) Hex F78 Hn).
  - intros Hex Hn. exact (V (2 ^ 64) 92%nat ltac:(lia) Hex F93 Hn).
  - exact F78.
  - exact F79.
  - exact F93.
  - exact F94.
Qed.

Lemma fibonacci_exact_through_77_and_92_witness :
  option_map value (fibonacci 64 0%nat 77 (fun _ => 0))
  = Some 5527939700884757.
Proof.
  destruct (@fibonacci_exact_through_77_and_92 Z Z_exact (fun x => x) 77
              64%nat 0%nat (fun _ => 0)) as (H & _); [lia|].
  rewrite H; [| apply Z_exact_below | lia].
  rewrite fib_as_power. reflexivity.
Defined.

(** X6.  No squaring is wasted.  Under exact arithmetic, when [fibonacci]
    returns for an index [2 <= n], the array [mat] holds the base matrix raised to the power
    [2^(p-1)], where [p] is the number of passes made: [mat] was squared on
    every pass but the last, and [2^(p-1)] is the highest power of two that
    is at most [n - 1]. *)
Theorem fibonacci_leaves_top_power n fuel fp (m : mem Z) :
  2 <= n <= Long.LONG_MAX -> (63 <= fuel)%nat ->
  exists o,
    fibonacci fuel fp n m = Some o /\
    full (read3 (final_mem o) (mat_of fp))
    = M2.pow M2.base (2 ^ (iterations o - 1)) /\
    2 ^ Z.of_nat (iterations o - 1) <= n - 1 < 2 ^ Z.of_nat (iterations o).
Proof.
  intros Hn Hf.
  assert (Hb : 0 <= n - 1 < 2 ^ Z.of_nat fuel).
  { split; [lia|].
    apply Z.lt_le_trans with (2 ^ 63);
      [unfold Long.LONG_MAX, Long.bits in Hn; lia|].
    apply Z.pow_le_mono_r; lia. }
  destruct (@loop_mat_power fuel fp (LoopState (n - 1) (frame_init fp m) 0) 1%nat)
    as (t & Ht & Pt); cbn [ls_index ls_mem]; try assumption; [lia| |].
  { rewrite frame_init_mat. apply full_base. }
  destruct (@loop_terminates Z Z_exact fuel fp
              (LoopState (n - 1) (frame_init fp m) 0)) as (t' & Ht' & Nt);
    cbn [ls_index ls_iters] in *; try assumption; [lia|].
  rewrite Ht in Ht'. injection Ht' as <-.
  unfold fibonacci.
  destruct (Z.eqb_spec n 0); [lia|]. destruct (Z.eqb_spec n 1); [lia|].
  rewrite dec_no_wrap by (unfold Long.LONG_MIN, Long.bits; lia).
  rewrite Ht. eexists; split; [reflexivity|]. cbn [final_mem iterations].
  pose proof (bit_length_pos (x := n - 1) ltac:(lia)) as Hp.
  assert (E : ls_iters t = bit_length (n - 1)) by lia.
  split.
  - rewrite Pt, E. f_equal.
    replace (Nat.max 1 (bit_length (n - 1))) with (bit_length (n - 1)) by lia.
    lia.
  - rewrite E. unfold bit_length in *.
    destruct (Z.leb_spec (n - 1) 0); [lia|].
    pose proof (Z.log2_nonneg (n - 1)).
    pose proof (Z.log2_spec (n - 1) ltac:(lia)) as L.
    replace (Z.of_nat (Z.to_nat (Z.log2 (n - 1) + 1) - 1)) with (Z.log2 (n - 1))
      by lia.
    replace (Z.of_nat (Z.to_nat (Z.log2 (n - 1) + 1))) with (Z.succ (Z.log2 (n - 1)))
      by lia.
    exact L.
Qed.

Lemma fibonacci_leaves_top_power_witness :
  exists o,
    fibonacci 64 0%nat 20 (fun _ => 0) = Some o /\
    full (read3 (final_mem o) (mat_of 0%nat)) = M2.pow M2.base 16.
Proof.
  destruct (@fibonacci_leaves_top_power 20 64%nat 0%nat (fun _ => 0))
    as (o & Ho & Po & _).
  - unfold Long.LONG_MAX, Long.bits. lia.
  - lia.
  - exists o. split; [exact Ho|]. rewrite Po.
    vm_compute in Ho. injection Ho as <-. reflexivity.
Defined.

(** X7.  Under exact arithmetic the values of [fibonacci] are never
    negative and never decrease as the index grows, over all the indices
    [0 <= n <= k] of a [long]; from index 1 on they are positive. *)
Theorem fibonacci_monotone n k fuel fp (m : mem Z) :
  0 <= n <= k -> k <= Long.LONG_MAX -> (63 <= fuel)%nat ->
  exists o1 o2,
    fibonacci fuel fp n m = Some o1 /\
    fibonacci fuel fp k m = Some o2 /\
    0 <= value o1 <= value o2 /\
    (1 <= n -> 1 <= value o1).
Proof.
  intros Hnk Hk Hf.
  destruct (@fibonacci_exact n fuel fp m ltac:(lia) Hf) as (o1 & H1 & V1 & _).
  destruct (@fibonacci_exact k fuel fp m ltac:(lia) Hf) as (o2 & H2 & V2 & _).
  exists o1, o2. split; [exact H1|]. split; [exact H2|].
  rewrite V1, V2. repeat split.
  - apply fib_nonneg.
  - apply fib_mono. lia.
  - intros H. change 1 with (fib 1). apply fib_mono. lia.
Qed.

Lemma fibonacci_monotone_witness :
  exists o1 o2,
    fibonacci 64 0%nat 10 (fun _ => 0) = Some o1 /\
    fibonacci 64 0%nat 11 (fun _ => 0) = Some o2 /\
    0 <= value o1 <= value o2.
Proof.
  destruct (@fibonacci_monotone 10 11 64%nat 0%nat (fun _ => 0))
    as (o1 & o2 & H1 & H2 & V & _).
  - lia.
  - unfold Long.LONG_MAX, Long.bits. lia.
  - lia.
  - exists o1, o2. repeat split; (exact H1 || exact H2 || apply V).
Defined.

(** X8.  The shape the arrays keep.  Under exact arithmetic and for any
    index, at the start of every pass and when the loop is left, each of the
    two arrays (a, b, c) of [fibonacci] has [a = b + c] and
    [a*c - b*b] equal to 1 or -1: the matrix held is never singular. *)
Theorem arrays_keep_shape index fp (m : mem Z) :
  let shaped (s : matrix Z) :=
    e0 s = e1 s + e2 s /\
    (e0 s * e2 s - e1 s * e1 s = 1 \/ e0 s * e2 s - e1 s * e1 s = -1) in
  (forall k st,
     loop_at k (mat_of fp) (ret_of fp) (LoopState index (frame_init fp m) 0)
     = Some st ->
     shaped (read3 (ls_mem st) (ret_of fp)) /\
     shaped (read3 (ls_mem st) (mat_of fp))) /\
  (forall fuel st,
     loop fuel (mat_of fp) (ret_of fp) (LoopState index (frame_init fp m) 0)
     = Some st ->
     shaped (read3 (ls_mem st) (ret_of fp)) /\
     shaped (read3 (ls_mem st) (mat_of fp))).
Proof.
  intros shaped.
  assert (Sh : forall (s : matrix Z) j, full s = M2.pow M2.base j -> shaped s).
  { intros s j Hs. destruct (pow_base_shape j) as (_ & A & D).
    cbv zeta in A, D. rewrite <- Hs in A, D.
    destruct s as [a b c]. unfold shaped, det, full in *;
      cbn [e0 e1 e2 M2.m11 M2.m12 M2.m21 M2.m22] in *.
    split; [exact A|]. rewrite D.
    destruct (Z.Even_or_Odd (Z.of_nat j)) as [[h Hh]|[h Hh]]; rewrite Hh.
    - left. rewrite Z.pow_mul_r by lia. change ((-1) ^ 2) with 1.
      apply Z.pow_1_l. lia.
    - right. rewrite Z.pow_add_r, Z.pow_mul_r by lia. change ((-1) ^ 2) with 1.
      rewrite Z.pow_1_l by lia. reflexivity. }
  split.
  - intros k st H.
    destruct (@loop_at_powers k fp (LoopState index (frame_init fp m) 0)
                st 1%nat 1%nat) as (r & q & Hr & Hq); cbn [ls_mem].
    + rewrite frame_init_ret. apply full_base.
    + rewrite frame_init_mat. apply full_base.
    + exact H.
    + split; [exact (Sh _ _ Hr) | exact (Sh _ _ Hq)].
  - intros fuel st H.
    destruct (@loop_result_powers fuel fp (LoopState index (frame_init fp m) 0)
                st 1%nat 1%nat) as (r & q & Hr & Hq); cbn [ls_mem].
    + rewrite frame_init_ret. apply full_base.
    + rewrite frame_init_mat. apply full_base.
    + exact H.
    + split; [exact (Sh _ _ Hr) | exact (Sh _ _ Hq)].
Qed.

Lemma arrays_keep_shape_witness :
  3 = 2 + 1 /\ (3 * 1 - 2 * 2 = 1 \/ 3 * 1 - 2 * 2 = -1).
Proof.
  pose proof (proj2 (@arrays_keep_shape 2 0%nat (fun _ => 0)) 64%nat) as H.
  cbv zeta in H.
  destruct (loop 64 (mat_of 0%nat) (ret_of 0%nat)
              (LoopState 2 (frame_init 0%nat (fun _ => 0)) 0)) as [st|] eqn:L;
    [|vm_compute in L; discriminate L].
  destruct (H st eq_refl) as (R & _).
  vm_compute in L. injection L as <-. exact R.
Defined.

(* ================================================================= *)
(** ** Properties of [main] *)

(** The test [argc < 1] succeeds for the empty [argv] only. *)
Lemma argc_test (argv : list string) :
  (Z.of_nat (List.length argv) <? 1)
  = match argv with nil => true | _ :: _ => false end.
Proof.
  destruct argv as [|prog rest]; [reflexivity|].
  cbn [List.length]. apply Z.ltb_ge. lia.
Qed.

(** X9.  From the command line to the call of [printf].  In any
    arithmetic that is exact on the non-negative integers below [B] (exact
    arithmetic is one), when the first argument is there and [atol] reads
    from it an index [0 <= n] of a [long] with [F(n+1) < B], [main] calls
    [printf("%Lf", val)] with [val] the Fibonacci number F(n) and returns 0,
    whatever further arguments follow.  What [printf] writes for [val] is
    not part of the statement. *)
Theorem main_passes_fibonacci_to_printf
  {real} {ops : RealOps real} (inj : Z -> real) (B : Z)
  (atol : string -> Z) argv arg fuel fp (m : mem real) :
  exact_below inj B ->
  List.nth_error argv 1 = Some arg ->
  0 <= atol arg <= Long.LONG_MAX -> (63 <= fuel)%nat ->
  fib (Z.to_nat (atol arg) + 1) < B ->
  main atol fuel fp argv m
  = Some (Returned 0 (Some (inj (fib (Z.to_nat (atol arg)))))).
Proof.
  intros Hex Harg Hn Hf Hb. unfold main. rewrite argc_test, Harg.
  destruct argv as [|prog rest]; [discriminate|].
  rewrite Nat.add_1_r in Hb.
  destruct (fibonacci_exact_below Hex fp m Hn Hf Hb) as (o & Ho & Vo).
  now rewrite Ho, Vo.
Qed.

Lemma main_passes_fibonacci_to_printf_witness :
  main (fun _ => 20) 64 0%nat ("fib" :: "20" :: nil)%string (fun _ => 0)
  = Some (Returned 0 (Some 6765)).
Proof.
  rewrite (@main_passes_fibonacci_to_printf Z Z_exact (fun x => x) (2 ^ 14)
             (fun _ => 20) ("fib" :: "20" :: nil)%string
             "20"%string 64%nat 0%nat (fun _ => 0)).
  - rewrite fib_power_entry. reflexivity.
  - apply Z_exact_below.
  - reflexivity.
  - unfold Long.LONG_MAX, Long.bits. lia.
  - lia.
  - rewrite fib_power_entry. vm_compute. reflexivity.
Defined.

(** X10.  The argument check does not guard the read of the argument.  In
    any arithmetic, [main] returns 0 without printing only when [argc] is 0;
    run with the name of the program alone ([argc] = 1) it passes the test
    [argc < 1] and gives [atol] the null pointer [argv[1]]; and whenever it
    does return, the exit code is 0. *)
Theorem main_missing_argument
  {real} {ops : RealOps real} (atol : string -> Z) argv fuel fp (m : mem real) :
  (argv = nil -> main atol fuel fp argv m = Some (Returned 0 None)) /\
  (List.length argv = 1%nat -> main atol fuel fp argv m = Some NullArgument) /\
  (main atol fuel fp argv m = Some (Returned 0 None) -> argv = nil) /\
  (forall code printed,
     main atol fuel fp argv m = Some (Returned code printed) -> code = 0).
Proof.
  unfold main. rewrite argc_test. repeat split.
  - now intros ->.
  - destruct argv as [|prog [|arg rest]]; try discriminate. reflexivity.
  - destruct argv as [|prog [|arg rest]]; [reflexivity|discriminate|].
    cbn [List.nth_error].
    destruct (fibonacci fuel fp (atol arg) m); discriminate.
  - intros code printed.
    destruct argv as [|prog rest].
    { intros H. now injection H as <- _. }
    destruct (List.nth_error (prog :: rest) 1) as [arg|]; [|discriminate].
    destruct (fibonacci fuel fp (atol arg) m); [|discriminate].
    intros H. now injection H as <- _.
Qed.

Lemma main_missing_argument_witness :
  main (fun _ => 0) 64 0%nat ("fib" :: nil)%string (fun _ : ptr => 0)
  = Some NullArgument.
Proof.
  apply (proj1 (proj2 (@main_missing_argument Z Z_exact (fun _ => 0)
                         ("fib" :: nil)%string 64%nat 0%nat (fun _ => 0)))).
  reflexivity.
Defined.

(** X11.  A negative argument hangs the program.  In any arithmetic, when
    [atol] reads from the first argument a negative index above
    [LONG_MIN], [main] neither prints nor returns, for any amount of fuel. *)
Theorem main_negative_argument
  {real} {ops : RealOps real} (atol : string -> Z) argv arg fp (m : mem real) :
  List.nth_error argv 1 = Some arg ->
  Long.LONG_MIN < atol arg < 0 ->
  forall fuel, main atol fuel fp argv m = None.
Proof.
  intros Harg Hn fuel. unfold main. rewrite argc_test, Harg.
  destruct argv as [|prog rest]; [discriminate|].
  assert (Hd : Long.dec (atol arg) < 0).
  { rewrite dec_no_wrap; [lia|]. unfold Long.LONG_MAX, Long.bits. lia. }
  unfold fibonacci.
  destruct (Z.eqb_spec (atol arg) 0); [lia|].
  destruct (Z.eqb_spec (atol arg) 1); [lia|].
  now rewrite loop_negative.
Qed.

Lemma main_negative_argument_witness :
  main (fun _ => -3) 7 0%nat ("fib" :: "-3" :: nil)%string (fun _ : ptr => 0)
  = None.
Proof.
  apply (@main_negative_argument Z Z_exact (fun _ => -3)
           ("fib" :: "-3" :: nil)%string "-3"%string 0%nat (fun _ => 0)).
  - reflexivity.
  - unfold Long.LONG_MIN, Long.bits. lia.
Defined.
